(** * The renter's download entry point (modules/renter/download.go)

    A shallow embedding of [managedFail], [newDownload], [Download] and
    [DownloadHistory], with Go's fixed-width integer arithmetic written out
    over [Z], the download objects kept in a pointer-indexed store, and the
    effects of the code (logging, closing channels and sinks, pushing chunk
    jobs) recorded in the renter state. *)

From Stdlib Require Import ZArith Lia.
From stdpp Require Import gmap strings list fin_maps pretty.

Local Open Scope Z_scope.

(** ** Go integer types *)

(** uint64 values are integers in [0, 2^64); every operation wraps. *)
Module U64.
Definition modulus : Z := 2 ^ 64.
Definition wrap (z : Z) : Z := z mod modulus.
Definition add (a b : Z) : Z := wrap (a + b).
Definition sub (a b : Z) : Z := wrap (a - b).
Definition mul (a b : Z) : Z := wrap (a * b).
Definition inrange (z : Z) : Prop := 0 <= z < modulus.
End U64.

(** int64(x) for a uint64 x, and int64 addition: two's complement. *)
Module I64.
Definition wrap (z : Z) : Z := (z + 2 ^ 63) mod 2 ^ 64 - 2 ^ 63.
Definition add (a b : Z) : Z := wrap (a + b).
End I64.

(** ** Errors

    [errors.New] and [fmt.Errorf] give an error carrying its message.
    [errors.Compose] of github.com/NebulousLabs/errors drops the nil
    arguments and collects the others in an error set (nil when none is
    left), whose message is the bracketed, semicolon-separated list. *)

#[local] Set Warnings "-register-all".

Inductive error : Type :=
  | ErrNew (msg : string)
  | ErrSet (errs : list error).

Fixpoint Error (e : error) : string :=
  match e with
  | ErrNew msg => msg
  | ErrSet errs =>
      let fix join (first : bool) (l : list error) : string :=
        match l with
        | [] => ""
        | x :: tl => (if first then "" else "; ") +:+ Error x +:+ join false tl
        end in
      "[" +:+ join true errs +:+ "]"
  end.

Definition Compose (a b : option error) : option error :=
  match a, b with
  | None, None => None
  | Some x, None => Some (ErrSet [x])
  | None, Some y => Some (ErrSet [y])
  | Some x, Some y => Some (ErrSet [x; y])
  end.

(** What a call can do: return a value, return a Go error, panic, or still
    be running when the fuel of a loop is spent. *)
Inductive result (A : Type) : Type :=
  | Ok (a : A)
  | Fail (e : error)
  | Panic (msg : string)
  | OutOfFuel.
Arguments Ok {A} a.
Arguments Fail {A} e.
Arguments Panic {A} msg.
Arguments OutOfFuel {A}.

#[export] Instance result_bind : MBind result := fun A B k m =>
  match m with
  | Ok a => k a
  | Fail e => Fail e
  | Panic s => Panic s
  | OutOfFuel => OutOfFuel
  end.

(** Integer division and remainder panic on a zero divisor. *)
Definition udiv (a b : Z) : result Z :=
  if b =? 0 then Panic "integer divide by zero" else Ok (a / b).
Definition umod (a b : Z) : result Z :=
  if b =? 0 then Panic "integer divide by zero" else Ok (a mod b).

(** ** Data model *)

Definition FileContractID := N.   (* types.FileContractID, a 32-byte hash *)
Definition Hash := N.             (* crypto.Hash *)
Definition time := Z.             (* time.Time; the zero Time is 0 *)
Definition ptr := nat.            (* address of an object in a store *)

(** A [chan struct{}] that is only ever closed. *)
Inductive chan : Type := ChanOpen | ChanClosed.

Definition close (c : chan) : result chan :=
  match c with
  | ChanOpen => Ok ChanClosed
  | ChanClosed => Panic "close of closed channel"
  end.

(** [select { case <-c: true; default: false }] *)
Definition recv_ready (c : chan) : bool :=
  match c with ChanClosed => true | ChanOpen => false end.

Record pieceData : Type := {
  Chunk : Z;          (* uint64: which chunk the piece belongs to *)
  Piece : Z;          (* uint64: index of the piece in the chunk *)
  MerkleRoot : Hash
}.

Record fileContract : Type := { Pieces : list pieceData }.

Record downloadPieceInfo : Type := { index : Z; root : Hash }.

Record erasureCoder : Type := { NumPieces : Z; MinPieces : Z }.

(** The file metadata [newDownload] reads. [contracts] lists the entries of
    the Go map in the order the [range] statement visits them (any order);
    [staticChunkSize] is the value of the method of that name. *)
Module F.
Record t : Type := mk {
  name : string;
  size : Z;
  contracts : list (FileContractID * fileContract);
  masterKey : N;
  erasureCode : erasureCoder;
  pieceSize : Z;
  staticChunkSize : Z
}.
End F.
Abbreviation file := F.t.

(** The download object. *)
Module D.
Record t : Type := mk {
  atomicDataReceived : Z;
  atomicTotalDataTransfered : Z;
  chunksRemaining : Z;
  completeChan : chan;
  err : option error;
  endTime : time;
  staticStartTime : time;
  destination : ptr;
  destinationString : string;
  destinationType : string;
  staticLength : Z;
  staticOffset : Z;
  staticSiaPath : string;
  staticLatencyTarget : Z;
  staticOverdrive : Z;
  staticPriority : Z
}.
Definition set_err (e : option error) (d : t) : t :=
  mk (atomicDataReceived d) (atomicTotalDataTransfered d) (chunksRemaining d)
     (completeChan d) e (endTime d) (staticStartTime d) (destination d)
     (destinationString d) (destinationType d) (staticLength d)
     (staticOffset d) (staticSiaPath d) (staticLatencyTarget d)
     (staticOverdrive d) (staticPriority d).
Definition set_completeChan (c : chan) (d : t) : t :=
  mk (atomicDataReceived d) (atomicTotalDataTransfered d) (chunksRemaining d)
     c (err d) (endTime d) (staticStartTime d) (destination d)
     (destinationString d) (destinationType d) (staticLength d)
     (staticOffset d) (staticSiaPath d) (staticLatencyTarget d)
     (staticOverdrive d) (staticPriority d).
Definition set_chunksRemaining (n : Z) (d : t) : t :=
  mk (atomicDataReceived d) (atomicTotalDataTransfered d) n
     (completeChan d) (err d) (endTime d) (staticStartTime d) (destination d)
     (destinationString d) (destinationType d) (staticLength d)
     (staticOffset d) (staticSiaPath d) (staticLatencyTarget d)
     (staticOverdrive d) (staticPriority d).
End D.
Abbreviation download := D.t.

(** downloadParams *)
Module P.
Record t : Type := mk {
  destination : ptr;
  destinationType : string;
  destinationString : string;
  file : option F.t;          (* *file, possibly nil *)
  latencyTarget : Z;
  length : Z;
  needsMemory : bool;
  offset : Z;
  overdrive : Z;
  priority : Z
}.
End P.
Abbreviation downloadParams := P.t.

(** unfinishedDownloadChunk: the fields [newDownload] sets. *)
Module C.
Record t : Type := mk {
  destination : ptr;
  erasureCode : erasureCoder;
  masterKey : N;
  staticChunkIndex : Z;
  staticChunkMap : gmap FileContractID downloadPieceInfo;
  staticChunkSize : Z;
  staticPieceSize : Z;
  staticLatencyTarget : Z;
  staticNeedsMemory : bool;
  staticPriority : Z;
  physicalChunkData : list (option (list Z));
  pieceUsage : list bool;
  download : ptr;
  staticFetchOffset : Z;
  staticFetchLength : Z;
  staticWriteOffset : Z;
  staticOverdrive : Z
}.
End C.
Abbreviation unfinishedDownloadChunk := C.t.

Inductive logEntry : Type :=
  | LogCritical (msg : string) (e : option error)
  | LogPrintln (msg : string) (e : option error).

(** ** staticComplete, managedFail, Err *)

Definition staticComplete (d : download) : bool := recv_ready (D.completeChan d).

(** What [managedFail] does besides updating the download object. *)
Inductive effect : Type :=
  | ECloseCompleteChan
  | EDestinationClose
  | ELog (l : logEntry).

Definition is_nil (e : option error) : bool :=
  match e with None => true | Some _ => false end.

(** [closeErr] is what [d.destination.Close()] returns if it is called. *)
Definition managedFail (closeErr : option error) (d : download)
    (e : option error) : result (download * list effect) :=
  let complete := staticComplete d in
  if complete && negb (is_nil (D.err d)) then
    Ok (D.set_err (Compose (D.err d) e) d, [])
  else if complete && is_nil (D.err d) then
    Ok (d, [ELog (LogCritical
      "download is marked as completed without error, but then managedFail was called with err:" e)])
  else
    let d := D.set_err e d in
    c ← close (D.completeChan d);
    let d := D.set_completeChan c d in
    Ok (d, [ECloseCompleteChan; EDestinationClose] ++
           match closeErr with
           | Some ce => [ELog (LogPrintln "unable to close download destination:" (Some ce))]
           | None => []
           end).

Definition Err (d : download) : option error := D.err d.

(** ** The renter *)

Inductive sinkTarget : Type :=
  | HTTPStream (w : nat)       (* newDownloadDestinationHTTPWriter(w) *)
  | OSFile (path : string).    (* *os.File opened at path *)

(** A downloadDestination object; [closeCalls] counts the calls of Close. *)
Record sink : Type := { target : sinkTarget; closeCalls : nat }.

(** The renter state the download code touches. [downloads] and [sinks] are
    the stores of download and destination objects, addressed by position;
    [downloadHeap] lists the chunk jobs handed to
    managedAddChunkToDownloadHeap, in call order; [newDownloads] tells
    whether the single-slot wake channel holds a token; [hostContractor] is
    the contractor's ResolveID. *)
Module R.
Record t : Type := mk {
  files : gmap string file;
  hostContractor : FileContractID -> FileContractID;
  downloads : list download;
  sinks : list sink;
  downloadHistory : list ptr;
  downloadHeap : list unfinishedDownloadChunk;
  newDownloads : bool;
  log : list logEntry;
  stopChan : chan
}.
End R.
Abbreviation Renter := R.t.

(** ** newDownload *)

Fixpoint foldlM {A B : Type} (f : A -> B -> result A) (a : A) (l : list B)
    : result A :=
  match l with
  | [] => Ok a
  | x :: tl => a' ← f a x; foldlM f a' tl
  end.

Abbreviation chunkMapsT := (list (gmap FileContractID downloadPieceInfo)).

(** The body of [for _, piece := range contract.Pieces]. *)
Definition addPiece (minChunk maxChunk : Z) (resolvedID : FileContractID)
    (st : chunkMapsT * list logEntry) (piece : pieceData)
    : result (chunkMapsT * list logEntry) :=
  let '(chunkMaps, lg) := st in
  if (minChunk <=? Chunk piece) && (Chunk piece <=? maxChunk) then
    let k := Z.to_nat (U64.sub (Chunk piece) minChunk) in
    match chunkMaps !! k with
    | None => Panic "index out of range"
    | Some m =>
        let lg :=
          if bool_decide (is_Some (m !! resolvedID)) then
            lg ++ [LogPrintln "ERROR: Worker has multiple pieces uploaded for the same chunk." None]
          else lg in
        let info := {| index := Piece piece; root := MerkleRoot piece |} in
        Ok (<[k := <[resolvedID := info]> m]> chunkMaps, lg)
    end
  else Ok st.

(** The body of [for id, contract := range params.file.contracts]. *)
Definition addContract (ResolveID : FileContractID -> FileContractID)
    (minChunk maxChunk : Z) (st : chunkMapsT * list logEntry)
    (c : FileContractID * fileContract) : result (chunkMapsT * list logEntry) :=
  let resolvedID := ResolveID (fst c) in
  foldlM (addPiece minChunk maxChunk resolvedID) st (Pieces (snd c)).

Definition assembleChunkMaps (ResolveID : FileContractID -> FileContractID)
    (minChunk maxChunk : Z) (f : file) (lg : list logEntry)
    : result (chunkMapsT * list logEntry) :=
  let n := U64.add (U64.sub maxChunk minChunk) 1 in
  let chunkMaps : chunkMapsT := replicate (Z.to_nat n) ∅ in
  foldlM (addContract ResolveID minChunk maxChunk) (chunkMaps, lg) (F.contracts f).

(** What the queueing loop updates: the download object, the running write
    offset, the heap and the wake signal. *)
Record loopState : Type := {
  ls_d : download;
  ls_writeOffset : Z;
  ls_heap : list unfinishedDownloadChunk;
  ls_wake : bool
}.

(** One iteration of [for i := minChunk; i <= maxChunk; i++]. *)
Definition queueChunk (params : downloadParams) (f : file) (dp : ptr)
    (minChunk maxChunk : Z) (chunkMaps : chunkMapsT) (i : Z) (st : loopState)
    : result loopState :=
  let d := D.set_chunksRemaining (U64.add (D.chunksRemaining (ls_d st)) 1) (ls_d st) in
  match chunkMaps !! Z.to_nat (U64.sub i minChunk) with
  | None => Panic "index out of range"
  | Some cm =>
      let cs := F.staticChunkSize f in
      let np := NumPieces (F.erasureCode f) in
      if np <? 0 then Panic "makeslice: len out of range" else
      fetchOffset ← (if i =? minChunk then umod (P.offset params) cs else Ok 0);
      fetchLength ←
        (if i =? maxChunk then
           e ← umod (U64.add (P.length params) (P.offset params)) cs;
           if negb (e =? 0) then Ok (U64.sub e fetchOffset)
           else Ok (U64.sub cs fetchOffset)
         else Ok (U64.sub cs fetchOffset));
      let udc := {|
        C.destination := P.destination params;
        C.erasureCode := F.erasureCode f;
        C.masterKey := F.masterKey f;
        C.staticChunkIndex := i;
        C.staticChunkMap := cm;
        C.staticChunkSize := cs;
        C.staticPieceSize := F.pieceSize f;
        C.staticLatencyTarget :=
          U64.add (P.latencyTarget params) (U64.mul 25 (U64.sub i minChunk));
        C.staticNeedsMemory := P.needsMemory params;
        C.staticPriority := P.priority params;
        C.physicalChunkData := replicate (Z.to_nat np) None;
        C.pieceUsage := replicate (Z.to_nat np) false;
        C.download := dp;
        C.staticFetchOffset := fetchOffset;
        C.staticFetchLength := fetchLength;
        C.staticWriteOffset := ls_writeOffset st;
        C.staticOverdrive := if i <? 2 then P.overdrive params else 0
      |} in
      Ok {| ls_d := d;
            ls_writeOffset := I64.add (ls_writeOffset st) (I64.wrap fetchLength);
            ls_heap := ls_heap st ++ [udc];
            ls_wake := true |}
  end.

Fixpoint queueChunks (fuel : nat) (params : downloadParams) (f : file)
    (dp : ptr) (minChunk maxChunk : Z) (chunkMaps : chunkMapsT) (i : Z)
    (st : loopState) : result loopState :=
  if i <=? maxChunk then
    match fuel with
    | O => OutOfFuel
    | S fuel' =>
        st' ← queueChunk params f dp minChunk maxChunk chunkMaps i st;
        queueChunks fuel' params f dp minChunk maxChunk chunkMaps (U64.add i 1) st'
    end
  else Ok st.

(** [now] is what time.Now() returns; the new download object is stored at
    the next free address, which is returned. *)
Definition newDownload (fuel : nat) (now : time) (r : Renter)
    (params : downloadParams) : result (ptr * Renter) :=
  match P.file params with
  | None => Fail (ErrNew "no file provided when requesting download")
  | Some f =>
      if P.length params <=? 0 then
        Fail (ErrNew "download length must be a positive whole number")
      else if P.offset params <? 0 then
        Fail (ErrNew "download offset cannot be a negative number")
      else if U64.add (P.offset params) (P.length params) >? F.size f then
        Fail (ErrNew "download is requesting data past the boundary of the file")
      else
        let d := {|
          D.atomicDataReceived := 0;
          D.atomicTotalDataTransfered := 0;
          D.chunksRemaining := 0;
          D.completeChan := ChanOpen;
          D.err := None;
          D.endTime := 0;
          D.staticStartTime := now;
          D.destination := P.destination params;
          D.destinationString := P.destinationString params;
          D.destinationType := "";
          D.staticLength := P.length params;
          D.staticOffset := P.offset params;
          D.staticSiaPath := F.name f;
          D.staticLatencyTarget := P.latencyTarget params;
          D.staticOverdrive := P.overdrive params;
          D.staticPriority := P.priority params
        |} in
        let dp := length (R.downloads r) in
        minChunk ← udiv (P.offset params) (F.staticChunkSize f);
        maxChunk ← udiv (U64.sub (U64.add (P.offset params) (P.length params)) 1)
                        (F.staticChunkSize f);
        '(chunkMaps, lg) ← assembleChunkMaps (R.hostContractor r) minChunk maxChunk f (R.log r);
        st ← queueChunks fuel params f dp minChunk maxChunk chunkMaps minChunk
               {| ls_d := d; ls_writeOffset := 0;
                  ls_heap := R.downloadHeap r; ls_wake := R.newDownloads r |};
        Ok (dp, R.mk (R.files r) (R.hostContractor r) (R.downloads r ++ [ls_d st])
                     (R.sinks r) (R.downloadHistory r) (ls_heap st) (ls_wake st)
                     lg (R.stopChan r))
  end.

(** ** Download *)

(** modules.RenterDownloadParameters; [Httpwriter] is an interface value,
    nil when the download goes to a file. *)
Module RP.
Record t : Type := mk {
  Async : bool;
  Httpwriter : option nat;
  Destination : string;
  Length : Z;
  Offset : Z;
  SiaPath : string
}.
End RP.
Abbreviation RenterDownloadParameters := RP.t.

(** filepath.IsAbs on Unix: the path begins with a slash. *)
Definition IsAbs (path : string) : bool := String.prefix "/" path.

Definition is_empty (s : string) : bool := String.eqb s "".

(** The file lookup and the parameter checks at the head of [Download]:
    the file found and the length with the zero sentinel expanded. *)
Definition Download_validate (r : Renter) (p : RenterDownloadParameters)
    : result (file * Z) :=
  match R.files r !! RP.SiaPath p with
  | None => Fail (ErrNew ("no file with that path: " +:+ RP.SiaPath p))
  | Some f =>
      let isHTTPResp := negb (bool_decide (RP.Httpwriter p = None)) in
      if RP.Async p && isHTTPResp then
        Fail (ErrNew "cannot async download to http response")
      else if isHTTPResp && negb (is_empty (RP.Destination p)) then
        Fail (ErrNew "destination cannot be specified when downloading to http response")
      else if negb isHTTPResp && is_empty (RP.Destination p) then
        Fail (ErrNew "destination not supplied")
      else if negb (is_empty (RP.Destination p)) && negb (IsAbs (RP.Destination p)) then
        Fail (ErrNew "destination must be an absolute path")
      else if RP.Offset p =? F.size f then
        Fail (ErrNew "offset equals filesize")
      else
        let Length :=
          if RP.Length p =? 0 then U64.sub (F.size f) (RP.Offset p)
          else RP.Length p in
        if (RP.Offset p <? 0) || (U64.add (RP.Offset p) Length >? F.size f) then
          Fail (ErrNew ("offset and length combination invalid, max byte is at index "
                        +:+ pretty (U64.sub (F.size f) 1)))
        else Ok (f, Length)
  end.

(** [Download] up to the point where it blocks: validation, the destination
    object, [newDownload], and the append to the history. [openErr] is the
    error os.OpenFile returns, if any. *)
Definition Download_start (fuel : nat) (now : time) (openErr : option error)
    (r : Renter) (p : RenterDownloadParameters) : result (ptr * Renter) :=
  '(f, Length) ← Download_validate r p;
  '(target, destinationType) ←
    match RP.Httpwriter p with
    | Some w => Ok (HTTPStream w, "http stream")
    | None =>
        match openErr with
        | Some e => Fail e
        | None => Ok (OSFile (RP.Destination p), "file")
        end
    end;
  let dw := length (R.sinks r) in
  let r := R.mk (R.files r) (R.hostContractor r) (R.downloads r)
                (R.sinks r ++ [{| target := target; closeCalls := 0 |}])
                (R.downloadHistory r) (R.downloadHeap r) (R.newDownloads r)
                (R.log r) (R.stopChan r) in
  '(d, r) ← newDownload fuel now r {|
      P.destination := dw;
      P.destinationType := destinationType;
      P.destinationString := RP.Destination p;
      P.file := Some f;
      P.latencyTarget := 25000;
      P.length := Length;
      P.needsMemory := true;
      P.offset := RP.Offset p;
      P.overdrive := 2;
      P.priority := 5
    |};
  Ok (d, R.mk (R.files r) (R.hostContractor r) (R.downloads r) (R.sinks r)
              (R.downloadHistory r ++ [d]) (R.downloadHeap r) (R.newDownloads r)
              (R.log r) (R.stopChan r)).

(** The final [select]: which case fires is the scheduler's choice among
    the ready ones; [None] when the chosen case is not ready (the call stays
    blocked). Returns what [Download] returns, and the renter state. *)
Inductive selectCase : Type := CaseComplete | CaseStop.

Definition Download_wait (pick : selectCase) (r : Renter) (d : ptr)
    : option (option error * Renter) :=
  dl ← R.downloads r !! d;
  match pick with
  | CaseComplete =>
      if recv_ready (D.completeChan dl) then Some (Err dl, r) else None
  | CaseStop =>
      if recv_ready (R.stopChan r) then
        Some (Some (ErrNew "download interrupted by shutdown"), r)
      else None
  end.

(** ** DownloadHistory *)

Module DI.
Record t : Type := mk {
  Destination : string;
  DestinationType : string;
  Length : Z;
  Offset : Z;
  SiaPath : string;
  Completed : bool;
  EndTime : time;
  Received : Z;
  StartTime : time;
  TotalDataTransfered : Z;
  Error : string
}.
Definition set_Error (e : string) (x : t) : t :=
  mk (Destination x) (DestinationType x) (Length x) (Offset x) (SiaPath x)
     (Completed x) (EndTime x) (Received x) (StartTime x)
     (TotalDataTransfered x) e.
Definition zero : t := mk "" "" 0 0 "" false 0 0 0 0 "".
End DI.
Abbreviation DownloadInfo := DI.t.

(** The entry built for one download in the loop body. *)
Definition downloadInfo (d : download) : DownloadInfo :=
  let info := {|
    DI.Destination := D.destinationString d;
    DI.DestinationType := D.destinationType d;
    DI.Length := D.staticLength d;
    DI.Offset := D.staticOffset d;
    DI.SiaPath := D.staticSiaPath d;
    DI.Completed := staticComplete d;
    DI.EndTime := D.endTime d;
    DI.Received := D.atomicDataReceived d;
    DI.StartTime := D.staticStartTime d;
    DI.TotalDataTransfered := D.atomicTotalDataTransfered d;
    DI.Error := ""
  |} in
  match Err d with
  | Some e => DI.set_Error (Error e) info
  | None => DI.set_Error "" info
  end.

(** [for i := range r.downloadHistory]: slot i is filled from the history
    entry at len-i-1. *)
Definition DownloadHistory (r : Renter) : result (list DownloadInfo) :=
  let n := length (R.downloadHistory r) in
  foldlM (fun (downloads : list DownloadInfo) (i : nat) =>
            match R.downloadHistory r !! (n - i - 1)%nat with
            | None => Panic "index out of range"
            | Some dp =>
                match R.downloads r !! dp with
                | None => Panic "invalid memory address or nil pointer dereference"
                | Some d => Ok (<[i := downloadInfo d]> downloads)
                end
            end)
         (replicate n DI.zero) (seq 0 n).

(** * Specification vocabulary *)

(** ** Validated requests *)

Definition wf_file (f : file) : Prop :=
  0 < F.staticChunkSize f < U64.modulus /\
  0 <= F.size f < U64.modulus /\
  0 <= NumPieces (F.erasureCode f).

Definition validated (params : downloadParams) (f : file) : Prop :=
  P.file params = Some f /\
  0 <= P.offset params /\ 0 < P.length params /\
  P.offset params + P.length params <= F.size f.

Definition minChunkOf (params : downloadParams) (f : file) : Z :=
  P.offset params / F.staticChunkSize f.
Definition maxChunkOf (params : downloadParams) (f : file) : Z :=
  (P.offset params + P.length params - 1) / F.staticChunkSize f.
Definition chunkCount (params : downloadParams) (f : file) : Z :=
  maxChunkOf params f - minChunkOf params f + 1.

(** The exact (unbounded-integer) fetch window of chunk [i]. *)
Definition fetchOffsetAt (params : downloadParams) (f : file) (i : Z) : Z :=
  if i =? minChunkOf params f then P.offset params mod F.staticChunkSize f else 0.
Definition fetchLengthAt (params : downloadParams) (f : file) (i : Z) : Z :=
  let e := (P.offset params + P.length params) mod F.staticChunkSize f in
  if (i =? maxChunkOf params f) && negb (e =? 0)
  then e - fetchOffsetAt params f i
  else F.staticChunkSize f - fetchOffsetAt params f i.

(** The job queued for chunk [i], given its piece map and the write offset
    reached so far. *)
Definition jobAt (params : downloadParams) (f : file) (dp : ptr)
    (cm : gmap FileContractID downloadPieceInfo) (wo : Z) (i : Z)
    : unfinishedDownloadChunk := {|
  C.destination := P.destination params;
  C.erasureCode := F.erasureCode f;
  C.masterKey := F.masterKey f;
  C.staticChunkIndex := i;
  C.staticChunkMap := cm;
  C.staticChunkSize := F.staticChunkSize f;
  C.staticPieceSize := F.pieceSize f;
  C.staticLatencyTarget :=
    U64.wrap (P.latencyTarget params + 25 * (i - minChunkOf params f));
  C.staticNeedsMemory := P.needsMemory params;
  C.staticPriority := P.priority params;
  C.physicalChunkData := replicate (Z.to_nat (NumPieces (F.erasureCode f))) None;
  C.pieceUsage := replicate (Z.to_nat (NumPieces (F.erasureCode f))) false;
  C.download := dp;
  C.staticFetchOffset := fetchOffsetAt params f i;
  C.staticFetchLength := fetchLengthAt params f i;
  C.staticWriteOffset := wo;
  C.staticOverdrive := if i <? 2 then P.overdrive params else 0
|}.


(** ** The chunk maps *)

(** The pieces of the file with the resolved id of their contract, in the
    order the two nested loops visit them. *)
Definition allPieces (ResolveID : FileContractID -> FileContractID) (f : file)
    : list (FileContractID * pieceData) :=
  c ← F.contracts f; (λ p, (ResolveID c.1, p)) <$> Pieces c.2.

Definition lookup2 (cms : chunkMapsT) (k : nat) (rid : FileContractID)
    : option downloadPieceInfo :=
  cms !! k ≫= (λ m, m !! rid).

Definition infoOf (p : pieceData) : downloadPieceInfo :=
  {| index := Piece p; root := MerkleRoot p |}.

Definition inChunks (minChunk maxChunk : Z) (p : pieceData) : Prop :=
  minChunk <= Chunk p <= maxChunk.

(** The jobs the queueing loop appends, starting at chunk [i] with write
    offset [wo], for [k] chunks. *)
Fixpoint jobsFrom (params : downloadParams) (f : file) (dp : ptr)
    (chunkMaps : chunkMapsT) (k : nat) (i : Z) (wo : Z)
    : list unfinishedDownloadChunk :=
  match k with
  | O => []
  | S k' =>
      jobAt params f dp (chunkMaps !!! Z.to_nat (i - minChunkOf params f)) wo i ::
      jobsFrom params f dp chunkMaps k' (i + 1)
               (I64.add wo (I64.wrap (fetchLengthAt params f i)))
  end.

(** The write offset the loop has reached after those [k] chunks. *)
Fixpoint endOffset (params : downloadParams) (f : file) (k : nat) (i : Z)
    (wo : Z) : Z :=
  match k with
  | O => wo
  | S k' => endOffset params f k' (i + 1)
                      (I64.add wo (I64.wrap (fetchLengthAt params f i)))
  end.

(** The download object [newDownload] creates, before the loop counts its
    chunks. *)
Definition freshDownload (now : time) (params : downloadParams) (f : file)
    : download := {|
  D.atomicDataReceived := 0;
  D.atomicTotalDataTransfered := 0;
  D.chunksRemaining := 0;
  D.completeChan := ChanOpen;
  D.err := None;
  D.endTime := 0;
  D.staticStartTime := now;
  D.destination := P.destination params;
  D.destinationString := P.destinationString params;
  D.destinationType := "";
  D.staticLength := P.length params;
  D.staticOffset := P.offset params;
  D.staticSiaPath := F.name f;
  D.staticLatencyTarget := P.latencyTarget params;
  D.staticOverdrive := P.overdrive params;
  D.staticPriority := P.priority params
|}.

(** [newDownload] returns, and [Q] holds of the address of the new download,
    the renter state it leaves, and the jobs it has appended to the heap. *)
Definition queued (fuel : nat) (now : time) (r : Renter) (params : downloadParams)
    (Q : ptr -> Renter -> list unfinishedDownloadChunk -> Prop) : Prop :=
  exists dp r' jobs,
    newDownload fuel now r params = Ok (dp, r') /\
    R.downloadHeap r' = R.downloadHeap r ++ jobs /\
    Q dp r' jobs.

(** Enough fuel for the queueing loop of a validated request. *)
Definition enoughFuel (fuel : nat) (params : downloadParams) (f : file) : Prop :=
  (Z.to_nat (chunkCount params f) <= fuel)%nat.

(** The chunks of the request, in order: minChunk .. maxChunk. *)
Definition chunkRange (params : downloadParams) (f : file) : list Z :=
  seqZ (P.offset params / F.staticChunkSize f)
       ((P.offset params + P.length params - 1) / F.staticChunkSize f
        - P.offset params / F.staticChunkSize f + 1).

(** The fetch window of a job, as the specification words it. *)
Definition fetchWindowSpec (params : downloadParams) (f : file)
    (job : unfinishedDownloadChunk) : Prop :=
  let cs := F.staticChunkSize f in
  let i := C.staticChunkIndex job in
  let minChunk := P.offset params / cs in
  let maxChunk := (P.offset params + P.length params - 1) / cs in
  C.staticFetchOffset job = (if i =? minChunk then P.offset params mod cs else 0) /\
  C.staticFetchLength job =
    (if (i =? maxChunk) && negb ((P.offset params + P.length params) mod cs =? 0)
     then (P.offset params + P.length params) mod cs - C.staticFetchOffset job
     else cs - C.staticFetchOffset job).

(** Overdrive as claimed: the first two chunks of the download. *)
Definition overdriveFirstTwoOfDownload (params : downloadParams) (f : file)
    (job : unfinishedDownloadChunk) : Prop :=
  let minChunk := P.offset params / F.staticChunkSize f in
  C.staticOverdrive job =
    (if C.staticChunkIndex job <? minChunk + 2 then P.overdrive params else 0).

(** Overdrive as the code has it: chunks 0 and 1 of the file. *)
Definition overdriveFirstTwoOfFile (params : downloadParams)
    (job : unfinishedDownloadChunk) : Prop :=
  C.staticOverdrive job =
    (if C.staticChunkIndex job <? 2 then P.overdrive params else 0).

(** The latency target of a job in unbounded arithmetic. *)
Definition latencySpec (params : downloadParams) (f : file)
    (job : unfinishedDownloadChunk) : Prop :=
  let minChunk := P.offset params / F.staticChunkSize f in
  C.staticLatencyTarget job =
    P.latencyTarget params + 25 * (C.staticChunkIndex job - minChunk).

(** Latency targets never decrease along the queue. *)
Definition latencyMonotone (jobs : list unfinishedDownloadChunk) : Prop :=
  forall (a b : nat) ja jb,
    (a <= b)%nat -> jobs !! a = Some ja -> jobs !! b = Some jb ->
    C.staticChunkIndex ja <= C.staticChunkIndex jb /\
    C.staticLatencyTarget ja <= C.staticLatencyTarget jb.

(** The piece map of a job holds, under each resolved contract id, a piece of
    the job's chunk stored under a contract with that id, and it has an entry
    for every such piece. *)
Definition chunkMapSpec (ResolveID : FileContractID -> FileContractID)
    (f : file) (job : unfinishedDownloadChunk) : Prop :=
  (forall rid info, C.staticChunkMap job !! rid = Some info ->
     exists id c piece,
       (id, c) ∈ F.contracts f /\ piece ∈ Pieces c /\ ResolveID id = rid /\
       Chunk piece = C.staticChunkIndex job /\
       info = {| index := Piece piece; root := MerkleRoot piece |}) /\
  (forall id c piece,
     (id, c) ∈ F.contracts f -> piece ∈ Pieces c ->
     Chunk piece = C.staticChunkIndex job ->
     is_Some (C.staticChunkMap job !! ResolveID id)).

Definition sumZ (l : list Z) : Z := foldr Z.add 0 l.

(** The write ranges of the queued jobs tile [0, len): every job writes a
    non-empty range that begins where the ranges of the earlier jobs end, and
    the lengths add up to [len]. *)
Definition writeRangesSpec (len : Z) (jobs : list unfinishedDownloadChunk) : Prop :=
  (forall (j : nat) job, jobs !! j = Some job ->
     0 < C.staticFetchLength job /\
     C.staticWriteOffset job = sumZ (C.staticFetchLength <$> take j jobs)) /\
  sumZ (C.staticFetchLength <$> jobs) = len.

(** A run of [managedFail] calls on one download object; each call comes
    with what Close would return and with the error passed. *)
Fixpoint managedFail_run (calls : list (option error * option error))
    (d : download) : result (download * list effect) :=
  match calls with
  | [] => Ok (d, [])
  | (closeErr, e) :: tl =>
      '(d1, effs1) ← managedFail closeErr d e;
      '(d2, effs2) ← managedFail_run tl d1;
      Ok (d2, effs1 ++ effs2)
  end.

(** How often a list of effects closes the completion channel, and how often
    it closes the destination. *)
Fixpoint closes (effs : list effect) : nat :=
  match effs with
  | [] => 0
  | ECloseCompleteChan :: tl => S (closes tl)
  | _ :: tl => closes tl
  end.
Fixpoint destinationCloses (effs : list effect) : nat :=
  match effs with
  | [] => 0
  | EDestinationClose :: tl => S (destinationCloses tl)
  | _ :: tl => destinationCloses tl
  end.

Definition errInterrupted : error := ErrNew "download interrupted by shutdown".

(** The renter once the global shutdown signal has fired. *)
Definition shutdownFired (r : Renter) : Renter :=
  R.mk (R.files r) (R.hostContractor r) (R.downloads r) (R.sinks r)
       (R.downloadHistory r) (R.downloadHeap r) (R.newDownloads r) (R.log r)
       ChanClosed.

(** C5 as claimed: when [Download] returns through the shutdown case, the
    download has been failed with the shutdown error. *)
Definition shutdownFailsDownload (r : Renter) (d : ptr) : Prop :=
  forall ret r', Download_wait CaseStop r d = Some (ret, r') ->
    ret = Some errInterrupted /\
    exists dl, R.downloads r' !! d = Some dl /\
      staticComplete dl = true /\ Err dl = Some errInterrupted.

(** [ds] are the download objects the history points to, oldest first. *)
Definition resolves (r : Renter) (ds : list download) : Prop :=
  Forall2 (fun p d => R.downloads r !! p = Some d) (R.downloadHistory r) ds.

(** ** Example inputs *)

Definition ex_piece (c p : Z) (h : N) : pieceData :=
  {| Chunk := c; Piece := p; MerkleRoot := h |}.

(** A 100-byte file of five 20-byte chunks, held under three contracts. *)
Definition ex_file : file :=
  F.mk "movie" 100
       [(1%N, {| Pieces := [ex_piece 0 0 10; ex_piece 1 0 11; ex_piece 2 0 12;
                            ex_piece 3 0 13; ex_piece 4 0 14] |});
        (2%N, {| Pieces := [ex_piece 0 1 20; ex_piece 1 1 21; ex_piece 2 1 22;
                            ex_piece 3 1 23; ex_piece 4 1 24] |});
        (3%N, {| Pieces := [ex_piece 2 2 32] |})]
       7 {| NumPieces := 3; MinPieces := 1 |} 20 20.

Definition ex_renter : Renter :=
  R.mk {["movie" := ex_file]} (fun id => id) [] [] [] [] false [] ChanOpen.

Definition ex_params (latencyTarget offset length : Z) : downloadParams :=
  P.mk 0%nat "file" "/tmp/movie" (Some ex_file) latencyTarget length true offset 2 5.

(** A file of 2^63+2 bytes in chunks of 2^63 bytes. *)
Definition ex_huge_file : file :=
  F.mk "huge" (2 ^ 63 + 2) [] 7 {| NumPieces := 3; MinPieces := 1 |} (2 ^ 63) (2 ^ 63).

Definition ex_huge_params (offset length : Z) : downloadParams :=
  P.mk 0%nat "file" "/tmp/huge" (Some ex_huge_file) 25000 length true offset 2 5.

Definition ex_request (offset length : Z) : RenterDownloadParameters :=
  RP.mk false None "/tmp/movie" length offset "movie".

Definition ex_download (c : chan) (e : option error) : download :=
  D.set_completeChan c (D.set_err e (freshDownload 0 (ex_params 25000 30 50) ex_file)).

(** A renter whose history holds a pending and a failed download. *)
Definition ex_history_renter : Renter :=
  R.mk ∅ (fun id => id)
       [ex_download ChanOpen None; ex_download ChanClosed (Some errInterrupted)]
       [] [0%nat; 1%nat] [] false [] ChanOpen.

(** * The method calls on stored objects *)

(** [d.destination.Close()] on the destination object at [dst]. *)
Definition closeSink (dst : ptr) (sinks : list sink) : result (list sink) :=
  match sinks !! dst with
  | None => Panic "invalid memory address or nil pointer dereference"
  | Some s =>
      Ok (<[dst := {| target := target s; closeCalls := S (closeCalls s) |}]> sinks)
  end.

(** One effect of [managedFail] carried out on the renter: the log is the
    renter's log, the destination is the object the download points to; the
    close of the completion channel is already recorded in the download. *)
Definition applyEffect (dst : ptr) (r : Renter) (eff : effect) : result Renter :=
  match eff with
  | ECloseCompleteChan => Ok r
  | EDestinationClose =>
      sinks ← closeSink dst (R.sinks r);
      Ok (R.mk (R.files r) (R.hostContractor r) (R.downloads r) sinks
               (R.downloadHistory r) (R.downloadHeap r) (R.newDownloads r)
               (R.log r) (R.stopChan r))
  | ELog l =>
      Ok (R.mk (R.files r) (R.hostContractor r) (R.downloads r) (R.sinks r)
               (R.downloadHistory r) (R.downloadHeap r) (R.newDownloads r)
               (R.log r ++ [l]) (R.stopChan r))
  end.

(** [d.managedFail(err)] through the pointer [d]: the object in the store is
    replaced by the updated one, which every holder of the pointer (the
    history, the chunk jobs, a blocked [Download]) then sees. *)
Definition managedFailAt (closeErr : option error) (r : Renter) (d : ptr)
    (e : option error) : result Renter :=
  match R.downloads r !! d with
  | None => Panic "invalid memory address or nil pointer dereference"
  | Some dl =>
      '(dl', effs) ← managedFail closeErr dl e;
      foldlM (applyEffect (D.destination dl))
             (R.mk (R.files r) (R.hostContractor r) (<[d := dl']> (R.downloads r))
                   (R.sinks r) (R.downloadHistory r) (R.downloadHeap r)
                   (R.newDownloads r) (R.log r) (R.stopChan r))
             effs
  end.

(** A run of such calls on one download. *)
Definition managedFailAt_run (calls : list (option error * option error))
    (r : Renter) (d : ptr) : result Renter :=
  foldlM (fun r c => managedFailAt c.1 r d c.2) r calls.

(** * More specification vocabulary *)

(** The bytes of the file a job fetches: from [fileStart] up to [fileEnd]. *)
Definition fileStart (job : unfinishedDownloadChunk) : Z :=
  C.staticChunkIndex job * C.staticChunkSize job + C.staticFetchOffset job.
Definition fileEnd (job : unfinishedDownloadChunk) : Z :=
  fileStart job + C.staticFetchLength job.

(** The fetch window of a job lies inside its chunk and is not empty. *)
Definition fetchInsideChunk (job : unfinishedDownloadChunk) : Prop :=
  0 <= C.staticFetchOffset job /\ 0 < C.staticFetchLength job /\
  C.staticFetchOffset job + C.staticFetchLength job <= C.staticChunkSize job.

(** The file ranges of the jobs follow one another from [from] to [to]. *)
Fixpoint fileRangesTile (from to : Z) (jobs : list unfinishedDownloadChunk) : Prop :=
  match jobs with
  | [] => from = to
  | job :: tl => fileStart job = from /\ fileRangesTile (fileEnd job) to tl
  end.

(** Uint64 parameters of a request. *)
Definition requestInRange (p : RenterDownloadParameters) : Prop :=
  U64.inrange (RP.Offset p) /\ U64.inrange (RP.Length p).

(** The errors the checks at the head of [newDownload] can return. *)
Definition errNoFile : error := ErrNew "no file provided when requesting download".
Definition errLength : error := ErrNew "download length must be a positive whole number".
Definition errNegative : error := ErrNew "download offset cannot be a negative number".
Definition errBoundary : error :=
  ErrNew "download is requesting data past the boundary of the file".

(** The destination object [Download] creates, and the parameters it hands
    to [newDownload] for the file [f] and the expanded length [len]. *)
Definition Download_sink (p : RenterDownloadParameters) : sink :=
  {| target := match RP.Httpwriter p with
               | Some w => HTTPStream w
               | None => OSFile (RP.Destination p)
               end;
     closeCalls := 0 |}.

Definition Download_params (r : Renter) (p : RenterDownloadParameters)
    (f : file) (len : Z) : downloadParams := {|
  P.destination := length (R.sinks r);
  P.destinationType := match RP.Httpwriter p with
                       | Some _ => "http stream"
                       | None => "file"
                       end;
  P.destinationString := RP.Destination p;
  P.file := Some f;
  P.latencyTarget := 25000;
  P.length := len;
  P.needsMemory := true;
  P.offset := RP.Offset p;
  P.overdrive := 2;
  P.priority := 5
|}.

(** ** More example inputs *)

Definition ex_http_request (offset length : Z) : RenterDownloadParameters :=
  RP.mk false (Some 9%nat) "" length offset "movie".

Definition ex_zero_file : file :=
  F.mk "empty-chunks" 100 [] 7 {| NumPieces := 3; MinPieces := 1 |} 0 0.

(** A renter with one pending download writing to one open file. *)
Definition ex_pending_renter : Renter :=
  R.mk {["movie" := ex_file]} (fun id => id)
       [ex_download ChanOpen None]
       [{| target := OSFile "/tmp/movie"; closeCalls := 0 |}]
       [0%nat] [] false [] ChanOpen.

(** The address and the renter state a [Download] of bytes 30..79 of the
    example file leaves when it blocks. *)
Definition ex_started : ptr * Renter :=
  match Download_start 3 0 None ex_renter (ex_request 30 50) with
  | Ok x => x
  | _ => (0%nat, ex_renter)
  end.

(** The address and the renter state [newDownload] returns for bytes 30..79
    of the example file. *)
Definition ex_queued : ptr * Renter :=
  match newDownload 3 0 ex_renter (ex_params 25000 30 50) with
  | Ok x => x
  | _ => (0%nat, ex_renter)
  end.

(** The pending example download failed at shutdown. *)
Definition ex_failed : Renter :=
  match managedFailAt None ex_pending_renter 0%nat (Some errInterrupted) with
  | Ok x => x
  | _ => ex_pending_renter
  end.

(** The line [newDownload] logs when a chunk map already holds a piece for
    the resolved contract. *)
Definition errMultiplePieces : logEntry :=
  LogPrintln "ERROR: Worker has multiple pieces uploaded for the same chunk." None.

(** The (resolved contract, chunk) pairs of the pieces inside the chunks
    [minChunk .. maxChunk], in the order the nested loops visit them. *)
Definition keysOf (minChunk maxChunk : Z) (l : list (FileContractID * pieceData))
    : list (FileContractID * Z) :=
  (λ e, (e.1, Chunk e.2)) <$> filter (λ e, minChunk <= Chunk e.2 <= maxChunk) l.

Definition pieceKeys (ResolveID : FileContractID -> FileContractID)
    (params : downloadParams) (f : file) : list (FileContractID * Z) :=
  keysOf (minChunkOf params f) (maxChunkOf params f) (allPieces ResolveID f).

(** * Auxiliary lemmas *)

Example Error_composed :
  Error (ErrSet [ErrNew "a"; ErrSet [ErrNew "b"; ErrNew "c"]]) = "[a; [b; c]]".
Proof. reflexivity. Qed.

Lemma u64_wrap_id z : U64.inrange z -> U64.wrap z = z.
Proof. unfold U64.inrange, U64.wrap. intros. by apply Z.mod_small. Qed.

Lemma modulus_val : U64.modulus = 18446744073709551616.
Proof. reflexivity. Qed.

Section Validated.
Variables (params : downloadParams) (f : file).
Hypothesis Hwf : wf_file f.
Hypothesis Hval : validated params f.

Let cs := F.staticChunkSize f.
Let off := P.offset params.
Let len := P.length params.
Let minChunk := minChunkOf params f.
Let maxChunk := maxChunkOf params f.

Lemma chunk_bounds : 0 <= minChunk <= maxChunk /\ maxChunk < U64.modulus - 1.
Proof.
  destruct Hwf as ((Hc1 & Hc2) & (Hs1 & Hs2) & _).
  destruct Hval as (_ & Ho & Hl & Hol).
  subst minChunk maxChunk. unfold minChunkOf, maxChunkOf.
  fold cs off len in Hc1, Hc2, Ho, Hl, Hol |- *.
  repeat split.
  - apply Z.div_pos; lia.
  - apply Z.div_le_mono; lia.
  - apply Z.div_lt_upper_bound; first lia. rewrite modulus_val in *. nia.
Qed.

Lemma fetchOffsetAt_range i : 0 <= fetchOffsetAt params f i < cs.
Proof.
  destruct Hwf as ((Hc1 & Hc2) & _). fold cs in Hc1.
  unfold fetchOffsetAt. fold cs. case_match; last lia.
  apply Z.mod_pos_bound; lia.
Qed.

Lemma fetchLengthAt_range i :
  minChunk <= i <= maxChunk -> 0 < fetchLengthAt params f i <= cs.
Proof.
  intros Hi.
  pose proof (fetchOffsetAt_range i) as Hfo.
  destruct Hwf as ((Hc1 & Hc2) & (Hs1 & Hs2) & _).
  destruct Hval as (_ & Ho & Hl & Hol).
  fold cs off len in Hc1, Hc2, Ho, Hl, Hol.
  unfold fetchLengthAt. fold cs off len maxChunk.
  destruct ((i =? maxChunk) && negb ((off + len) mod cs =? 0)) eqn:E; last lia.
  apply andb_true_iff in E as [E1 E2].
  apply Z.eqb_eq in E1. apply negb_true_iff, Z.eqb_neq in E2.
  pose proof (Z.mod_pos_bound (off + len) cs Hc1) as He.
  split; last lia.
  unfold fetchOffsetAt in *. fold cs off minChunk in Hfo |- *.
  destruct (i =? minChunk) eqn:E3; last lia.
  apply Z.eqb_eq in E3.
  assert (Hmm : minChunk = maxChunk) by lia.
  unfold minChunk, maxChunk, minChunkOf, maxChunkOf in Hmm. fold cs off len in Hmm.
  pose proof (Z.div_mod off cs ltac:(lia)) as D1.
  pose proof (Z.div_mod (off + len) cs ltac:(lia)) as D2.
  pose proof (Z.div_mod (off + len - 1) cs ltac:(lia)) as D3.
  pose proof (Z.mod_pos_bound off cs Hc1) as B1.
  pose proof (Z.mod_pos_bound (off + len - 1) cs Hc1) as B3.
  assert ((off + len) / cs = (off + len - 1) / cs).
  { apply (Z.div_unique _ _ _ ((off + len) mod cs - 1)); lia. }
  nia.
Qed.

Lemma queueChunk_ok dp chunkMaps cm i st :
  minChunk <= i <= maxChunk ->
  chunkMaps !! Z.to_nat (i - minChunk) = Some cm ->
  queueChunk params f dp minChunk maxChunk chunkMaps i st =
  Ok {| ls_d := D.set_chunksRemaining (U64.add (D.chunksRemaining (ls_d st)) 1) (ls_d st);
        ls_writeOffset := I64.add (ls_writeOffset st) (I64.wrap (fetchLengthAt params f i));
        ls_heap := ls_heap st ++ [jobAt params f dp cm (ls_writeOffset st) i];
        ls_wake := true |}.
Proof.
  intros Hi Hcm.
  pose proof chunk_bounds as (Hb1 & Hb2).
  pose proof (fetchOffsetAt_range i) as Hfo.
  pose proof (fetchLengthAt_range i Hi) as Hfl.
  destruct Hwf as ((Hc1 & Hc2) & (Hs1 & Hs2) & Hnp).
  destruct Hval as (_ & Ho & Hl & Hol).
  fold cs off len in Hc1, Hc2, Ho, Hl, Hol.
  unfold queueChunk.
  assert (U64.sub i minChunk = i - minChunk) as ->.
  { apply u64_wrap_id. unfold U64.inrange. lia. }
  rewrite Hcm. fold cs.
  destruct (NumPieces (F.erasureCode f) <? 0) eqn:En; first lia.
  assert (Hcz : (cs =? 0) = false) by lia.
  assert (Hadd : U64.add (P.length params) (P.offset params) = off + len).
  { unfold U64.add. rewrite u64_wrap_id; unfold U64.inrange; subst off len; lia. }
  assert (Hfo' : (if i =? minChunk then umod (P.offset params) cs else Ok 0)
                 = Ok (fetchOffsetAt params f i)).
  { unfold fetchOffsetAt, umod. fold minChunk cs. rewrite Hcz. by destruct (i =? minChunk). }
  rewrite Hfo'. cbn [mbind result_bind].
  assert (Hfl' : (if i =? maxChunk
            then e ← umod (U64.add (P.length params) (P.offset params)) cs;
                 (if negb (e =? 0) then Ok (U64.sub e (fetchOffsetAt params f i))
                  else Ok (U64.sub cs (fetchOffsetAt params f i)))
            else Ok (U64.sub cs (fetchOffsetAt params f i)))
           = Ok (fetchLengthAt params f i)).
  { unfold umod. rewrite Hcz, Hadd. cbn [mbind result_bind].
    unfold fetchLengthAt in *. fold cs off len maxChunk in Hfl |- *.
    rewrite modulus_val in *.
    destruct (i =? maxChunk); cbn [andb] in *;
      [destruct (negb ((off + len) mod cs =? 0))|];
      f_equal; apply u64_wrap_id; unfold U64.inrange; rewrite modulus_val; lia. }
  rewrite Hfl'. cbn [mbind result_bind].
  do 2 f_equal. unfold jobAt. f_equal.
  unfold U64.add, U64.mul. fold minChunk.
  unfold U64.wrap. rewrite Zplus_mod_idemp_r. done.
Qed.

End Validated.

Lemma foldlM_app {A B} (g : A -> B -> result A) a l1 l2 :
  foldlM g a (l1 ++ l2) = (a' ← foldlM g a l1; foldlM g a' l2).
Proof.
  revert a. induction l1 as [|x l1 IH]; intros a; simpl; first done.
  destruct (g a x); simpl; auto.
Qed.

Lemma foldlM_fmap {A B B'} (g : A -> B -> result A) (h : B' -> B) a l :
  foldlM g a (h <$> l) = foldlM (λ a x, g a (h x)) a l.
Proof.
  revert a. induction l as [|x l IH]; intros a; simpl; first done.
  destruct (g a (h x)); simpl; auto.
Qed.

Lemma assemble_flat ResolveID minChunk maxChunk st (f : file) :
  foldlM (addContract ResolveID minChunk maxChunk) st (F.contracts f) =
  foldlM (λ st e, addPiece minChunk maxChunk e.1 st e.2) st (allPieces ResolveID f).
Proof.
  unfold allPieces. generalize (F.contracts f) as cs. intros cs. revert st.
  induction cs as [|c cs IH]; intros st; first done.
  rewrite bind_cons, foldlM_app, foldlM_fmap. cbn [foldlM].
  change (addContract ResolveID minChunk maxChunk st c)
    with (foldlM (addPiece minChunk maxChunk (ResolveID c.1)) st (Pieces c.2)).
  cbn [fst snd].
  destruct (foldlM _ st (Pieces c.2)); cbn [mbind result_bind]; auto.
Qed.

Section ChunkMaps.
Variables (minChunk maxChunk : Z).
Hypothesis Hrange : 0 <= minChunk <= maxChunk /\ maxChunk < U64.modulus.

Let n : nat := Z.to_nat (maxChunk - minChunk + 1).

Lemma addPiece_ok rid cms lg p :
  length cms = n ->
  exists cms' lg',
    addPiece minChunk maxChunk rid (cms, lg) p = Ok (cms', lg') /\
    length cms' = n /\
    (forall k r, lookup2 cms' k r =
       if bool_decide (inChunks minChunk maxChunk p /\ k = Z.to_nat (Chunk p - minChunk) /\ r = rid)
       then Some (infoOf p) else lookup2 cms k r).
Proof.
  intros Hlen. unfold addPiece.
  destruct ((minChunk <=? Chunk p) && (Chunk p <=? maxChunk)) eqn:E.
  - apply andb_true_iff in E as [E1 E2].
    apply Z.leb_le in E1, E2.
    assert (U64.sub (Chunk p) minChunk = Chunk p - minChunk) as ->.
    { apply u64_wrap_id. unfold U64.inrange. lia. }
    destruct (lookup_lt_is_Some_2 cms (Z.to_nat (Chunk p - minChunk))) as [m Hm].
    { rewrite Hlen. subst n. lia. }
    rewrite Hm. eexists _, _. split; first done.
    split; first by rewrite length_insert.
    intros k r. unfold lookup2. case_bool_decide as Hd.
    + destruct Hd as (_ & -> & ->).
      rewrite list_lookup_insert_eq; last by eapply lookup_lt_Some.
      simpl. by rewrite lookup_insert_eq.
    + destruct (decide (k = Z.to_nat (Chunk p - minChunk))) as [->|Hk].
      * rewrite list_lookup_insert_eq; last by eapply lookup_lt_Some.
        rewrite Hm. simpl. rewrite lookup_insert_ne; first done.
        intros ->. apply Hd. unfold inChunks. done.
      * by rewrite list_lookup_insert_ne.
  - eexists _, _. split; first done. split; first done.
    intros k r. rewrite bool_decide_eq_false_2; first done.
    intros [[H1 H2] _]. apply andb_false_iff in E as [E|E]; lia.
Qed.

Lemma addPieces_ok (l : list (FileContractID * pieceData)) cms lg :
  length cms = n ->
  exists cms' lg',
    foldlM (λ st e, addPiece minChunk maxChunk e.1 st e.2) (cms, lg) l = Ok (cms', lg') /\
    length cms' = n /\
    (forall k r info, lookup2 cms' k r = Some info ->
       lookup2 cms k r = Some info \/
       exists e, e ∈ l /\ e.1 = r /\ inChunks minChunk maxChunk e.2 /\
                 k = Z.to_nat (Chunk e.2 - minChunk) /\ info = infoOf e.2) /\
    (forall k r, is_Some (lookup2 cms k r) -> is_Some (lookup2 cms' k r)) /\
    (forall e, e ∈ l -> inChunks minChunk maxChunk e.2 ->
       is_Some (lookup2 cms' (Z.to_nat (Chunk e.2 - minChunk)) e.1)).
Proof.
  revert cms lg. induction l as [|[rid p] l IH]; intros cms lg Hlen; cbn [foldlM fst snd].
  - eexists _, _. split; first done. split; first done.
    split; first by auto. split; first by auto.
    intros e He. by apply elem_of_nil in He.
  - destruct (addPiece_ok rid cms lg p Hlen) as (cms1 & lg1 & -> & Hlen1 & Hl1).
    cbn [mbind result_bind]. destruct (IH cms1 lg1 Hlen1) as (cms' & lg' & -> & Hlen' & Hs & Hm & Hc).
    eexists _, _. split; first done. split; first done.
    split; [|split].
    + intros k r info Hk. destruct (Hs k r info Hk) as [H1|(e & He & H2)].
      * rewrite Hl1 in H1. case_bool_decide as Hd.
        -- right. exists (rid, p). destruct Hd as (? & ? & ?).
           split; first by left. simpl. by simplify_eq.
        -- by left.
      * right. exists e. split; first by right. done.
    + intros k r Hk. apply Hm. rewrite Hl1. case_bool_decide; [by eexists | done].
    + intros e He Hin. apply elem_of_cons in He as [->|He].
      * simpl. apply Hm. rewrite Hl1. rewrite bool_decide_eq_true_2; first by eexists.
        done.
      * by apply Hc.
Qed.

End ChunkMaps.

Lemma set_chunksRemaining_twice n m d :
  D.set_chunksRemaining n (D.set_chunksRemaining m d) = D.set_chunksRemaining n d.
Proof. done. Qed.

Lemma set_chunksRemaining_same d :
  D.set_chunksRemaining (D.chunksRemaining d) d = d.
Proof. by destruct d. Qed.

Section Loop.
Variables (params : downloadParams) (f : file).
Hypothesis Hwf : wf_file f.
Hypothesis Hval : validated params f.
Variables (dp : ptr) (chunkMaps : chunkMapsT).

Local Abbreviation minChunk := (minChunkOf params f).
Local Abbreviation maxChunk := (maxChunkOf params f).

Hypothesis Hlen : length chunkMaps = Z.to_nat (chunkCount params f).

Lemma queueChunks_run (k : nat) : forall (fuel : nat) (i : Z) (st : loopState),
  minChunk <= i ->
  i + Z.of_nat k = maxChunk + 1 ->
  (k <= fuel)%nat ->
  0 <= D.chunksRemaining (ls_d st) ->
  D.chunksRemaining (ls_d st) + Z.of_nat k < U64.modulus ->
  queueChunks fuel params f dp minChunk maxChunk chunkMaps i st =
  Ok {| ls_d := D.set_chunksRemaining (D.chunksRemaining (ls_d st) + Z.of_nat k) (ls_d st);
        ls_writeOffset := endOffset params f k i (ls_writeOffset st);
        ls_heap := ls_heap st ++ jobsFrom params f dp chunkMaps k i (ls_writeOffset st);
        ls_wake := match k with O => ls_wake st | S _ => true end |}.
Proof.
  pose proof (chunk_bounds params f Hwf Hval) as (Hb1 & Hb2).
  induction k as [|k IH]; intros fuel i st Hi Hk Hfuel Hcr Hcr'.
  - destruct fuel; cbn [queueChunks];
      (replace (i <=? maxChunk) with false by lia);
      rewrite Z.add_0_r, set_chunksRemaining_same, app_nil_r; by destruct st.
  - destruct fuel as [|fuel]; first lia.
    cbn [queueChunks]. replace (i <=? maxChunk) with true by lia.
    destruct (lookup_lt_is_Some_2 chunkMaps (Z.to_nat (i - minChunk))) as [cm Hcm].
    { rewrite Hlen. unfold chunkCount. lia. }
    rewrite (queueChunk_ok params f Hwf Hval dp chunkMaps cm i st); [|lia|done].
    cbn [mbind result_bind].
    assert (U64.add i 1 = i + 1) as ->.
    { apply u64_wrap_id. unfold U64.inrange. lia. }
    assert (U64.add (D.chunksRemaining (ls_d st)) 1 = D.chunksRemaining (ls_d st) + 1) as ->.
    { apply u64_wrap_id. unfold U64.inrange. lia. }
    rewrite IH; cbn [ls_d ls_writeOffset ls_heap ls_wake D.chunksRemaining D.set_chunksRemaining];
      [|lia..].
    cbn [jobsFrom].
    rewrite (list_lookup_total_correct _ _ _ Hcm).
    cbn [endOffset].
    rewrite set_chunksRemaining_twice, <- app_assoc.
    replace (D.chunksRemaining (ls_d st) + 1 + Z.of_nat k)
      with (D.chunksRemaining (ls_d st) + Z.of_nat (S k)) by lia.
    by destruct k.
Qed.

End Loop.

Lemma lookup2_replicate_empty (n k : nat) r :
  lookup2 (replicate n (∅ : gmap FileContractID downloadPieceInfo)) k r = None.
Proof.
  unfold lookup2. destruct (replicate n ∅ !! k) as [m|] eqn:E; last done.
  apply lookup_replicate in E as [-> _]. done.
Qed.

Section NewDownload.
Variables (params : downloadParams) (f : file).
Hypothesis Hwf : wf_file f.
Hypothesis Hval : validated params f.

Local Abbreviation minChunk := (minChunkOf params f).
Local Abbreviation maxChunk := (maxChunkOf params f).
Local Abbreviation n := (Z.to_nat (chunkCount params f)).

Lemma assembleChunkMaps_ok ResolveID lg :
  exists chunkMaps lg',
    assembleChunkMaps ResolveID minChunk maxChunk f lg = Ok (chunkMaps, lg') /\
    length chunkMaps = n /\
    (forall k r info, lookup2 chunkMaps k r = Some info ->
       exists e, e ∈ allPieces ResolveID f /\ e.1 = r /\
                 inChunks minChunk maxChunk e.2 /\
                 k = Z.to_nat (Chunk e.2 - minChunk) /\ info = infoOf e.2) /\
    (forall e, e ∈ allPieces ResolveID f -> inChunks minChunk maxChunk e.2 ->
       is_Some (lookup2 chunkMaps (Z.to_nat (Chunk e.2 - minChunk)) e.1)).
Proof.
  pose proof (chunk_bounds params f Hwf Hval) as (Hb1 & Hb2).
  unfold assembleChunkMaps. rewrite assemble_flat.
  assert (U64.add (U64.sub maxChunk minChunk) 1 = chunkCount params f) as ->.
  { unfold U64.add, U64.sub, chunkCount.
    rewrite (u64_wrap_id (maxChunk - minChunk)) by (unfold U64.inrange; lia).
    apply u64_wrap_id. unfold U64.inrange. lia. }
  destruct (addPieces_ok minChunk maxChunk ltac:(lia) (allPieces ResolveID f)
              (replicate n ∅) lg) as (cms & lg' & Hrun & Hl & Hs & _ & Hc).
  { by rewrite length_replicate. }
  exists cms, lg'. split; first done. split; first done. split; last done.
  intros k r info Hk. destruct (Hs k r info Hk) as [Hin|?]; last done.
  by rewrite lookup2_replicate_empty in Hin.
Qed.

Lemma newDownload_validated (fuel : nat) (now : time) (r : Renter) :
  (n <= fuel)%nat ->
  exists chunkMaps lg,
    assembleChunkMaps (R.hostContractor r) minChunk maxChunk f (R.log r)
      = Ok (chunkMaps, lg) /\
    length chunkMaps = n /\
    newDownload fuel now r params =
    Ok (length (R.downloads r),
        R.mk (R.files r) (R.hostContractor r)
             (R.downloads r ++
                [D.set_chunksRemaining (chunkCount params f) (freshDownload now params f)])
             (R.sinks r) (R.downloadHistory r)
             (R.downloadHeap r ++
                jobsFrom params f (length (R.downloads r)) chunkMaps n minChunk 0)
             true lg (R.stopChan r)).
Proof.
  intros Hfuel.
  pose proof (chunk_bounds params f Hwf Hval) as (Hb1 & Hb2).
  destruct (assembleChunkMaps_ok (R.hostContractor r) (R.log r))
    as (cms & lg & Hasm & Hlen & _).
  exists cms, lg. split; first done. split; first done.
  destruct Hwf as ((Hc1 & Hc2) & (Hs1 & Hs2) & Hnp).
  destruct Hval as (Hfile & Ho & Hl & Hol).
  unfold newDownload. rewrite Hfile.
  destruct (P.length params <=? 0) eqn:E1; first lia.
  destruct (P.offset params <? 0) eqn:E2; first lia.
  assert (Hadd : U64.add (P.offset params) (P.length params)
                 = P.offset params + P.length params).
  { apply u64_wrap_id. unfold U64.inrange. lia. }
  rewrite Hadd.
  destruct (P.offset params + P.length params >? F.size f) eqn:E3; first lia.
  unfold udiv. replace (F.staticChunkSize f =? 0) with false by lia.
  cbn [mbind result_bind].
  assert (U64.sub (P.offset params + P.length params) 1
          = P.offset params + P.length params - 1) as ->.
  { apply u64_wrap_id. unfold U64.inrange. lia. }
  change (P.offset params / F.staticChunkSize f) with minChunk.
  change ((P.offset params + P.length params - 1) / F.staticChunkSize f) with maxChunk.
  rewrite Hasm. cbn [mbind result_bind].
  rewrite (queueChunks_run params f Hwf (conj Hfile (conj Ho (conj Hl Hol)))
             (length (R.downloads r)) cms Hlen n);
    cbn [ls_d ls_writeOffset ls_heap ls_wake D.chunksRemaining]; [|unfold chunkCount in *; lia..].
  cbn [mbind result_bind].
  assert (Hn : 0 + Z.of_nat n = chunkCount params f) by (unfold chunkCount; lia).
  rewrite Hn.
  destruct n eqn:En; first (unfold chunkCount in *; lia).
  done.
Qed.

End NewDownload.

(** ** The queued jobs *)

Section Jobs.
Variables (params : downloadParams) (f : file) (dp : ptr) (chunkMaps : chunkMapsT).

Lemma jobsFrom_length k i wo :
  length (jobsFrom params f dp chunkMaps k i wo) = k.
Proof. revert i wo. induction k as [|k IH]; intros; cbn; [done | by rewrite IH]. Qed.

Lemma jobsFrom_lookup k : forall i wo (j : nat),
  (j < k)%nat ->
  jobsFrom params f dp chunkMaps k i wo !! j =
  Some (jobAt params f dp
          (chunkMaps !!! Z.to_nat (i + Z.of_nat j - minChunkOf params f))
          (endOffset params f j i wo) (i + Z.of_nat j)).
Proof.
  induction k as [|k IH]; intros i wo j Hj; first lia.
  destruct j as [|j]; cbn [jobsFrom endOffset lookup list_lookup].
  - by rewrite Z.add_0_r.
  - change (?l !! j) with (l !! j). rewrite IH by lia.
    do 2 f_equal; [f_equal|]; lia.
Qed.

Lemma jobsFrom_index k i wo :
  C.staticChunkIndex <$> jobsFrom params f dp chunkMaps k i wo = seqZ i (Z.of_nat k).
Proof.
  apply list_eq. intros j. rewrite list_lookup_fmap.
  destruct (decide (j < k)%nat) as [Hj|Hj].
  - rewrite jobsFrom_lookup by done. cbn.
    by rewrite lookup_seqZ_lt by lia.
  - rewrite lookup_ge_None_2 by (rewrite jobsFrom_length; lia).
    cbn. by rewrite lookup_seqZ_ge by lia.
Qed.

Lemma jobsFrom_elem k i wo job :
  job ∈ jobsFrom params f dp chunkMaps k i wo ->
  exists j : nat, (j < k)%nat /\
    job = jobAt params f dp
            (chunkMaps !!! Z.to_nat (i + Z.of_nat j - minChunkOf params f))
            (endOffset params f j i wo) (i + Z.of_nat j).
Proof.
  intros [j Hj]%list_elem_of_lookup.
  assert (j < k)%nat as Hlt.
  { apply lookup_lt_Some in Hj. by rewrite jobsFrom_length in Hj. }
  exists j. split; first done.
  rewrite jobsFrom_lookup in Hj by done. by injection Hj.
Qed.

End Jobs.

Lemma elem_of_allPieces ResolveID (f : file) rid p :
  (rid, p) ∈ allPieces ResolveID f <->
  exists id c, (id, c) ∈ F.contracts f /\ p ∈ Pieces c /\ rid = ResolveID id.
Proof.
  unfold allPieces. rewrite list_elem_of_bind. split.
  - intros ([id c] & Hin & Hc). apply list_elem_of_fmap in Hin as (p' & Heq & Hp).
    injection Heq as -> ->. by exists id, c.
  - intros (id & c & Hc & Hp & ->). exists (id, c). split; last done.
    apply list_elem_of_fmap. by exists p.
Qed.

(** ** Write offsets *)

Lemma i64_wrap_id z : - 2 ^ 63 <= z < 2 ^ 63 -> I64.wrap z = z.
Proof. intros. unfold I64.wrap. rewrite Z.mod_small; lia. Qed.

Lemma i64_add_wrap a b : I64.add (I64.wrap a) (I64.wrap b) = I64.wrap (a + b).
Proof.
  unfold I64.add, I64.wrap. f_equal.
  replace ((a + 2 ^ 63) mod 2 ^ 64 - 2 ^ 63 + ((b + 2 ^ 63) mod 2 ^ 64 - 2 ^ 63) + 2 ^ 63)
    with ((a + 2 ^ 63) mod 2 ^ 64 + ((b + 2 ^ 63) mod 2 ^ 64 - 2 ^ 63)) by lia.
  rewrite Zplus_mod_idemp_l.
  replace (a + 2 ^ 63 + ((b + 2 ^ 63) mod 2 ^ 64 - 2 ^ 63))
    with ((b + 2 ^ 63) mod 2 ^ 64 + a) by lia.
  rewrite Zplus_mod_idemp_l. f_equal. lia.
Qed.

Lemma sumZ_app l1 l2 : sumZ (l1 ++ l2) = sumZ l1 + sumZ l2.
Proof.
  induction l1 as [|x l1 IH]; cbn [app sumZ foldr]; first done.
  fold (sumZ (l1 ++ l2)) (sumZ l1). rewrite IH. lia.
Qed.

Lemma take_seqZ (j : nat) m n :
  Z.of_nat j <= n -> take j (seqZ m n) = seqZ m (Z.of_nat j).
Proof.
  intros Hj. apply list_eq. intros i. rewrite lookup_take.
  case_decide.
  - rewrite !lookup_seqZ_lt by lia. done.
  - by rewrite lookup_seqZ_ge by lia.
Qed.

Section WriteOffsets.
Variables (params : downloadParams) (f : file).
Hypothesis Hwf : wf_file f.
Hypothesis Hval : validated params f.

Local Abbreviation cs := (F.staticChunkSize f).
Local Abbreviation off := (P.offset params).
Local Abbreviation len := (P.length params).
Local Abbreviation minChunk := (minChunkOf params f).
Local Abbreviation maxChunk := (maxChunkOf params f).

(** The sum of the fetch lengths of the first [j] chunks. *)
Local Abbreviation prefixSum j :=
  (sumZ (fetchLengthAt params f <$> seqZ minChunk (Z.of_nat j))).

Lemma endOffset_sum (j : nat) : forall i w,
  endOffset params f j i (I64.wrap w) =
  I64.wrap (w + sumZ (fetchLengthAt params f <$> seqZ i (Z.of_nat j))).
Proof.
  induction j as [|j IH]; intros i w.
  - cbn. by rewrite Z.add_0_r.
  - cbn [endOffset]. rewrite i64_add_wrap, IH.
    rewrite (seqZ_cons i (Z.of_nat (S j))) by lia.
    cbn [fmap list_fmap sumZ foldr]. f_equal.
    replace (Z.pred (Z.of_nat (S j))) with (Z.of_nat j) by lia.
    unfold Z.succ, sumZ. lia.
Qed.

Lemma jobsFrom_fetchLength dp cms k i wo :
  C.staticFetchLength <$> jobsFrom params f dp cms k i wo
  = fetchLengthAt params f <$> seqZ i (Z.of_nat k).
Proof.
  apply list_eq. intros j. rewrite !list_lookup_fmap.
  destruct (decide (j < k)%nat) as [Hj|Hj].
  - rewrite jobsFrom_lookup by done. cbn.
    by rewrite lookup_seqZ_lt by lia.
  - rewrite lookup_ge_None_2 by (rewrite jobsFrom_length; lia).
    cbn. by rewrite lookup_seqZ_ge by lia.
Qed.

Lemma offset_split : off = cs * minChunk + off mod cs /\ 0 <= off mod cs < cs.
Proof.
  destruct Hwf as ((Hc1 & Hc2) & _). unfold minChunkOf. split.
  - apply Z.div_mod. lia.
  - apply Z.mod_pos_bound. lia.
Qed.

Lemma end_split :
  off + len - 1 = cs * maxChunk + (off + len - 1) mod cs /\
  0 <= (off + len - 1) mod cs < cs /\
  ((off + len) mod cs = 0 -> off + len = cs * (maxChunk + 1)) /\
  ((off + len) mod cs <> 0 -> off + len = cs * maxChunk + (off + len) mod cs).
Proof.
  destruct Hwf as ((Hc1 & Hc2) & _). unfold maxChunkOf.
  pose proof (Z.div_mod (off + len - 1) cs ltac:(lia)) as D1.
  pose proof (Z.mod_pos_bound (off + len - 1) cs Hc1) as B1.
  pose proof (Z.div_mod (off + len) cs ltac:(lia)) as D2.
  pose proof (Z.mod_pos_bound (off + len) cs Hc1) as B2.
  split; first done. split; first done. split.
  - intros He. rewrite He in D2.
    assert ((off + len - 1) / cs = (off + len) / cs - 1) as ->; last lia.
    symmetry. apply (Z.div_unique _ _ _ (cs - 1)); lia.
  - intros He.
    assert ((off + len - 1) / cs = (off + len) / cs) as ->; last lia.
    symmetry. apply (Z.div_unique _ _ _ ((off + len) mod cs - 1)); lia.
Qed.

Lemma prefixSum_inner (j : nat) :
  (0 < j)%nat -> Z.of_nat j < chunkCount params f ->
  prefixSum j = (minChunk + Z.of_nat j) * cs - off.
Proof.
  pose proof offset_split as (Ho1 & Ho2).
  pose proof (chunk_bounds params f Hwf Hval) as (Hb1 & Hb2).
  unfold chunkCount.
  induction j as [|j IH]; intros Hpos Hj; first lia.
  rewrite seqZ_S, fmap_app, sumZ_app. cbn [fmap list_fmap sumZ foldr].
  assert (Hfl : fetchLengthAt params f (minChunk + Z.of_nat j)
                = cs - fetchOffsetAt params f (minChunk + Z.of_nat j)).
  { unfold fetchLengthAt.
    replace (minChunk + Z.of_nat j =? maxChunk) with false by lia. done. }
  rewrite Hfl. unfold fetchOffsetAt.
  destruct j as [|j].
  - rewrite seqZ_nil by lia. cbn [Z.of_nat fmap list_fmap sumZ foldr].
    rewrite !Z.add_0_r, Z.eqb_refl. lia.
  - rewrite IH by lia.
    destruct (Z.eqb_spec (minChunk + Z.of_nat (S j)) minChunk) as [E|E]; first lia.
    rewrite (Nat2Z.inj_succ (S j)). lia.
Qed.

Lemma prefixSum_total :
  prefixSum (Z.to_nat (chunkCount params f)) = len.
Proof.
  pose proof offset_split as (Ho1 & Ho2).
  pose proof end_split as (He1 & He2 & He3 & He4).
  pose proof (chunk_bounds params f Hwf Hval) as (Hb1 & Hb2).
  destruct Hwf as ((Hc1 & Hc2) & _).
  destruct Hval as (_ & Hoff & Hlen & _).
  assert (exists k : nat, Z.to_nat (chunkCount params f) = S k /\
                          Z.of_nat k = maxChunk - minChunk) as (k & -> & Hk).
  { exists (Z.to_nat (maxChunk - minChunk)). unfold chunkCount. lia. }
  rewrite seqZ_S, fmap_app, sumZ_app. cbn [fmap list_fmap sumZ foldr].
  replace (minChunk + Z.of_nat k) with maxChunk by lia.
  assert (Hlast : fetchLengthAt params f maxChunk =
            (if (off + len) mod cs =? 0 then cs else (off + len) mod cs)
            - (if maxChunk =? minChunk then off mod cs else 0)).
  { unfold fetchLengthAt, fetchOffsetAt. rewrite Z.eqb_refl. cbn [andb].
    by destruct ((off + len) mod cs =? 0). }
  rewrite Hlast.
  destruct k as [|k].
  - rewrite seqZ_nil by lia. cbn [fmap list_fmap sumZ foldr Z.of_nat] in *.
    replace (maxChunk =? minChunk) with true by lia.
    destruct ((off + len) mod cs =? 0) eqn:E.
    + apply Z.eqb_eq in E. specialize (He3 E). nia.
    + apply Z.eqb_neq in E. specialize (He4 E). nia.
  - rewrite prefixSum_inner by (unfold chunkCount; lia).
    replace (maxChunk =? minChunk) with false by lia.
    destruct ((off + len) mod cs =? 0) eqn:E.
    + apply Z.eqb_eq in E. specialize (He3 E). nia.
    + apply Z.eqb_neq in E. specialize (He4 E). nia.
Qed.

Lemma prefixSum_bounds (j : nat) :
  Z.of_nat j < chunkCount params f -> 0 <= prefixSum j < len.
Proof.
  pose proof offset_split as (Ho1 & Ho2).
  pose proof end_split as (He1 & He2 & _).
  pose proof (chunk_bounds params f Hwf Hval) as (Hb1 & Hb2).
  destruct Hval as (_ & Hoff & Hlen & _).
  intros Hj. destruct j as [|j].
  - rewrite seqZ_nil by lia. cbn. lia.
  - rewrite prefixSum_inner by lia. unfold chunkCount in Hj. nia.
Qed.

End WriteOffsets.

(** ** The history *)

Lemma DownloadHistory_prefix (r : Renter) (ds : list download) (k : nat) :
  resolves r ds ->
  (k <= length (R.downloadHistory r))%nat ->
  foldlM (fun (downloads : list DownloadInfo) (i : nat) =>
            match R.downloadHistory r !! (length (R.downloadHistory r) - i - 1)%nat with
            | None => Panic "index out of range"
            | Some dp =>
                match R.downloads r !! dp with
                | None => Panic "invalid memory address or nil pointer dereference"
                | Some d => Ok (<[i := downloadInfo d]> downloads)
                end
            end)
         (replicate (length (R.downloadHistory r)) DI.zero) (seq 0 k)
  = Ok ((downloadInfo <$> take k (reverse ds)) ++
        replicate (length (R.downloadHistory r) - k) DI.zero).
Proof.
  intros Hres. pose proof (Forall2_length _ _ _ Hres) as Hlen.
  induction k as [|k IH]; intros Hk.
  - cbn. by rewrite Nat.sub_0_r.
  - rewrite seq_S, foldlM_app, IH by lia. cbn [mbind result_bind foldlM Nat.add].
    destruct (lookup_lt_is_Some_2 (R.downloadHistory r)
                (length (R.downloadHistory r) - k - 1)) as [dp Hdp]; first lia.
    rewrite Hdp.
    destruct (Forall2_lookup_l _ _ _ _ _ Hres Hdp) as (dl & Hdl & Hstore).
    rewrite Hstore. cbn [mbind result_bind]. f_equal.
    assert (Hrev : reverse ds !! k = Some dl).
    { rewrite reverse_lookup by lia. rewrite <- Hdl. f_equal. lia. }
    rewrite (take_S_r _ _ _ Hrev), fmap_app. cbn [fmap list_fmap].
    rewrite <- app_assoc. cbn [app].
    rewrite insert_app_r_alt; last first.
    { rewrite length_fmap, length_take, length_reverse. lia. }
    f_equal.
    rewrite length_fmap, length_take, length_reverse.
    replace (k - k `min` length ds)%nat with 0%nat by lia.
    replace (length (R.downloadHistory r) - k)%nat
      with (S (length (R.downloadHistory r) - S k)) by lia.
    done.
Qed.

Lemma DownloadHistory_resolved (r : Renter) (ds : list download) :
  resolves r ds -> DownloadHistory r = Ok (downloadInfo <$> reverse ds).
Proof.
  intros Hres. pose proof (Forall2_length _ _ _ Hres) as Hlen.
  unfold DownloadHistory.
  rewrite (DownloadHistory_prefix r ds _ Hres) by lia.
  rewrite Nat.sub_diag, app_nil_r, take_ge; first done.
  rewrite length_reverse. lia.
Qed.

Lemma newDownload_frame fuel now r params dp r' :
  newDownload fuel now r params = Ok (dp, r') ->
  dp = length (R.downloads r) /\
  R.downloadHistory r' = R.downloadHistory r /\
  exists dnew, R.downloads r' = R.downloads r ++ [dnew].
Proof.
  unfold newDownload. intros H.
  destruct (P.file params) as [f|]; last done.
  destruct (P.length params <=? 0); first done.
  destruct (P.offset params <? 0); first done.
  destruct (_ >? _); first done.
  unfold udiv in H.
  destruct (F.staticChunkSize f =? 0); cbn [mbind result_bind] in H; first done.
  destruct (assembleChunkMaps _ _ _ _ _) as [[cms lg]| | |];
    cbn [mbind result_bind] in H; try done.
  destruct (queueChunks _ _ _ _ _ _ _ _ _) as [st| | |];
    cbn [mbind result_bind] in H; try done.
  injection H as <- <-. cbn. eauto.
Qed.

Lemma Download_start_frame fuel now openErr r p d r' :
  Download_start fuel now openErr r p = Ok (d, r') ->
  d = length (R.downloads r) /\
  R.downloadHistory r' = R.downloadHistory r ++ [d] /\
  exists dnew, R.downloads r' = R.downloads r ++ [dnew].
Proof.
  unfold Download_start. intros H.
  destruct (Download_validate r p) as [[f len]| | |]; cbn [mbind result_bind] in H; try done.
  match type of H with
  | mbind _ ?m = _ => destruct m as [[tg ty]| | |]; cbn [mbind result_bind] in H; try done
  end.
  match type of H with
  | mbind _ ?m = _ => destruct m as [[d0 r0]| | |] eqn:Hnew;
                      cbn [mbind result_bind] in H; try done
  end.
  apply newDownload_frame in Hnew as (-> & Hh & dnew & Hd). cbn in Hh, Hd.
  injection H as <- <-. cbn. rewrite Hh, Hd. eauto.
Qed.

(** * The claims *)

Lemma ex_file_wf : wf_file ex_file.
Proof. unfold wf_file. cbn. rewrite modulus_val. lia. Qed.

Lemma ex_params_validated lt off len :
  0 <= off -> 0 < len -> off + len <= 100 -> validated (ex_params lt off len) ex_file.
Proof. intros. unfold validated. cbn. auto. Qed.

(** What a validated [newDownload] queues, in terms of [jobAt]. *)
Lemma queued_validated fuel now r params f
    (Q : ptr -> Renter -> list unfinishedDownloadChunk -> Prop) :
  wf_file f -> validated params f -> enoughFuel fuel params f ->
  (forall chunkMaps lg,
     assembleChunkMaps (R.hostContractor r) (minChunkOf params f)
       (maxChunkOf params f) f (R.log r) = Ok (chunkMaps, lg) ->
     length chunkMaps = Z.to_nat (chunkCount params f) ->
     Q (length (R.downloads r))
       (R.mk (R.files r) (R.hostContractor r)
          (R.downloads r ++
             [D.set_chunksRemaining (chunkCount params f) (freshDownload now params f)])
          (R.sinks r) (R.downloadHistory r)
          (R.downloadHeap r ++
             jobsFrom params f (length (R.downloads r)) chunkMaps
               (Z.to_nat (chunkCount params f)) (minChunkOf params f) 0)
          true lg (R.stopChan r))
       (jobsFrom params f (length (R.downloads r)) chunkMaps
          (Z.to_nat (chunkCount params f)) (minChunkOf params f) 0)) ->
  queued fuel now r params Q.
Proof.
  intros Hwf Hval Hfuel HQ.
  destruct (newDownload_validated params f Hwf Hval fuel now r Hfuel)
    as (cms & lg & Hasm & Hlen & Hrun).
  eexists _, _, _. split; first exact Hrun. split; first done.
  by apply HQ.
Qed.

Lemma chunkRange_jobs params f dp chunkMaps :
  wf_file f -> validated params f ->
  C.staticChunkIndex <$>
    jobsFrom params f dp chunkMaps (Z.to_nat (chunkCount params f))
             (minChunkOf params f) 0
  = chunkRange params f.
Proof.
  intros Hwf Hval. pose proof (chunk_bounds params f Hwf Hval) as (Hb1 & Hb2).
  rewrite jobsFrom_index. unfold chunkRange, chunkCount, minChunkOf, maxChunkOf in *.
  f_equal. lia.
Qed.

(** C3. For a validated request on a well-formed file, [newDownload] returns
    and queues one job per chunk minChunk..maxChunk; the job of the first
    chunk fetches from [offset mod chunkSize], the others from 0, and the job
    of the last chunk fetches up to [(offset+length) mod chunkSize] when that
    is not 0, every other job up to the end of its chunk. *)
Theorem newDownload_fetch_window fuel now r params f :
  wf_file f -> validated params f -> enoughFuel fuel params f ->
  queued fuel now r params (fun _ _ jobs =>
    C.staticChunkIndex <$> jobs = chunkRange params f /\
    Forall (fetchWindowSpec params f) jobs).
Proof.
  intros Hwf Hval Hfuel. apply (queued_validated _ _ _ _ f); [done..|].
  intros cms lg _ _. split; first by apply chunkRange_jobs.
  apply Forall_forall. intros job (j & Hj & ->)%jobsFrom_elem.
  unfold fetchWindowSpec, jobAt, fetchLengthAt, fetchOffsetAt, minChunkOf, maxChunkOf.
  cbn. done.
Qed.

Lemma newDownload_fetch_window_witness :
  queued 3 0 ex_renter (ex_params 25000 30 50) (fun _ _ jobs =>
    C.staticChunkIndex <$> jobs = chunkRange (ex_params 25000 30 50) ex_file /\
    Forall (fetchWindowSpec (ex_params 25000 30 50) ex_file) jobs).
Proof.
  apply (newDownload_fetch_window 3 0 ex_renter (ex_params 25000 30 50) ex_file).
  - apply ex_file_wf.
  - apply ex_params_validated; lia.
  - unfold enoughFuel. vm_compute. lia.
Defined.

(** C4, as claimed, fails: a download that starts at chunk 2 of the file gets
    no overdrive on its first two chunks although 2 is configured. *)
Lemma overdrive_first_two_of_download_counterexample :
  ~ queued 3 0 ex_renter (ex_params 25000 50 30) (fun _ _ jobs =>
      Forall (overdriveFirstTwoOfDownload (ex_params 25000 50 30) ex_file) jobs).
Proof.
  intros (dp & r' & jobs & Hrun & Hheap & HQ).
  vm_compute in Hrun. injection Hrun as <- <-.
  cbn in Hheap. subst jobs.
  apply Forall_cons_1 in HQ as [H _].
  vm_compute in H. discriminate H.
Qed.

(** C4, amended. For a validated request, the queued jobs whose chunk index
    in the file is 0 or 1 get the configured overdrive, all others get 0. *)
Theorem newDownload_overdrive fuel now r params f :
  wf_file f -> validated params f -> enoughFuel fuel params f ->
  queued fuel now r params (fun _ _ jobs =>
    C.staticChunkIndex <$> jobs = chunkRange params f /\
    Forall (overdriveFirstTwoOfFile params) jobs).
Proof.
  intros Hwf Hval Hfuel. apply (queued_validated _ _ _ _ f); [done..|].
  intros cms lg _ _. split; first by apply chunkRange_jobs.
  apply Forall_forall. intros job (j & Hj & ->)%jobsFrom_elem.
  reflexivity.
Qed.

Lemma newDownload_overdrive_witness :
  queued 3 0 ex_renter (ex_params 25000 50 30) (fun _ _ jobs =>
    C.staticChunkIndex <$> jobs = chunkRange (ex_params 25000 50 30) ex_file /\
    Forall (overdriveFirstTwoOfFile (ex_params 25000 50 30)) jobs).
Proof.
  apply (newDownload_overdrive 3 0 ex_renter (ex_params 25000 50 30) ex_file).
  - apply ex_file_wf.
  - apply ex_params_validated; lia.
  - unfold enoughFuel. vm_compute. lia.
Defined.

(** C7, as claimed, fails: with a base target of 2^64-1 the target of the
    second chunk wraps around to 24. *)
Lemma latency_target_counterexample :
  ~ queued 3 0 ex_renter (ex_params (2 ^ 64 - 1) 0 40) (fun _ _ jobs =>
      Forall (latencySpec (ex_params (2 ^ 64 - 1) 0 40) ex_file) jobs) /\
  ~ queued 3 0 ex_renter (ex_params (2 ^ 64 - 1) 0 40) (fun _ _ jobs =>
      latencyMonotone jobs).
Proof.
  split; intros (dp & r' & jobs & Hrun & Hheap & HQ);
    vm_compute in Hrun; injection Hrun as <- <-;
    cbn in Hheap; subst jobs.
  - apply Forall_cons_1 in HQ as [_ HQ].
    apply Forall_cons_1 in HQ as [H _].
    vm_compute in H. discriminate H.
  - destruct (HQ 0%nat 1%nat _ _ ltac:(lia) eq_refl eq_refl) as [_ H].
    vm_compute in H. by apply H.
Qed.

(** C7, amended. For a validated request whose last latency target fits in
    64 bits, the job of chunk j has target base + 25 (j - minChunk), and the
    targets never decrease along the queue. *)
Theorem newDownload_latency_target fuel now r params f :
  wf_file f -> validated params f -> enoughFuel fuel params f ->
  0 <= P.latencyTarget params ->
  P.latencyTarget params + 25 * (chunkCount params f - 1) < U64.modulus ->
  queued fuel now r params (fun _ _ jobs =>
    C.staticChunkIndex <$> jobs = chunkRange params f /\
    Forall (latencySpec params f) jobs /\
    latencyMonotone jobs).
Proof.
  intros Hwf Hval Hfuel Hlt Hfit. apply (queued_validated _ _ _ _ f); [done..|].
  intros cms lg _ _. split; first by apply chunkRange_jobs.
  assert (Htarget : forall j : nat, (j < Z.to_nat (chunkCount params f))%nat ->
    U64.wrap (P.latencyTarget params +
              25 * (minChunkOf params f + Z.of_nat j - minChunkOf params f))
    = P.latencyTarget params + 25 * Z.of_nat j).
  { intros j Hj. rewrite u64_wrap_id; first lia. unfold U64.inrange. lia. }
  split.
  - apply Forall_forall. intros job (j & Hj & ->)%jobsFrom_elem.
    unfold latencySpec, jobAt. cbn. rewrite (Htarget j Hj).
    unfold minChunkOf. lia.
  - intros a b ja jb Hab Ha Hb.
    assert (b < Z.to_nat (chunkCount params f))%nat as Hbn.
    { apply lookup_lt_Some in Hb. by rewrite jobsFrom_length in Hb. }
    rewrite jobsFrom_lookup in Ha, Hb by lia.
    injection Ha as <-. injection Hb as <-. cbn.
    rewrite !Htarget by lia. lia.
Qed.

Lemma newDownload_latency_target_witness :
  queued 3 0 ex_renter (ex_params 25000 30 50) (fun _ _ jobs =>
    C.staticChunkIndex <$> jobs = chunkRange (ex_params 25000 30 50) ex_file /\
    Forall (latencySpec (ex_params 25000 30 50) ex_file) jobs /\
    latencyMonotone jobs).
Proof.
  apply (newDownload_latency_target 3 0 ex_renter (ex_params 25000 30 50) ex_file).
  - apply ex_file_wf.
  - apply ex_params_validated; lia.
  - unfold enoughFuel. vm_compute. lia.
  - cbn. lia.
  - vm_compute. reflexivity.
Defined.

(** C8. For a validated request, [newDownload] queues exactly one job per
    chunk offset/chunkSize .. (offset+length-1)/chunkSize, in order; the piece
    map of each job holds exactly the file's pieces of that chunk, keyed by
    resolved contract id; and the new download counts
    maxChunk - minChunk + 1 remaining chunks. *)
Theorem newDownload_chunks fuel now r params f :
  wf_file f -> validated params f -> enoughFuel fuel params f ->
  queued fuel now r params (fun dp r' jobs =>
    let minChunk := P.offset params / F.staticChunkSize f in
    let maxChunk := (P.offset params + P.length params - 1) / F.staticChunkSize f in
    C.staticChunkIndex <$> jobs = seqZ minChunk (maxChunk - minChunk + 1) /\
    Forall (chunkMapSpec (R.hostContractor r) f) jobs /\
    Forall (fun job => C.download job = dp) jobs /\
    exists d, R.downloads r' !! dp = Some d /\
              D.chunksRemaining d = maxChunk - minChunk + 1).
Proof.
  intros Hwf Hval Hfuel. apply (queued_validated _ _ _ _ f); [done..|].
  intros cms lg Hasm Hlen.
  pose proof (chunk_bounds params f Hwf Hval) as (Hb1 & Hb2).
  split; first by apply (chunkRange_jobs params f _ _ Hwf Hval).
  split; [|split].
  - destruct (assembleChunkMaps_ok params f Hwf Hval (R.hostContractor r) (R.log r))
      as (cms' & lg' & Hasm' & _ & Hsound & Hcomplete).
    rewrite Hasm in Hasm'. injection Hasm' as <- <-.
    apply Forall_forall. intros job (j & Hj & ->)%jobsFrom_elem.
    replace (minChunkOf params f + Z.of_nat j - minChunkOf params f)
      with (Z.of_nat j) by lia.
    rewrite Nat2Z.id.
    destruct (lookup_lt_is_Some_2 cms j) as [m Hm]; first lia.
    rewrite (list_lookup_total_correct _ _ _ Hm).
    assert (Hl2 : forall rid, lookup2 cms j rid = m !! rid).
    { intros rid. unfold lookup2. by rewrite Hm. }
    split; cbn [C.staticChunkMap C.staticChunkIndex jobAt].
    + intros rid info Hinfo. rewrite <- Hl2 in Hinfo.
      destruct (Hsound j rid info Hinfo) as ([rid' p] & Hin & Hrid & Hch & Hk & ->).
      cbn in Hrid, Hch, Hk. subst rid'.
      apply elem_of_allPieces in Hin as (id & c & Hc & Hp & ->).
      exists id, c, p. unfold inChunks in Hch.
      repeat split; try done. lia.
    + intros id c p Hc Hp Hch.
      assert (Hin : (R.hostContractor r id, p) ∈ allPieces (R.hostContractor r) f).
      { apply elem_of_allPieces. by exists id, c. }
      specialize (Hcomplete _ Hin). cbn in Hcomplete.
      rewrite <- Hl2.
      replace j with (Z.to_nat (Chunk p - minChunkOf params f)) by lia.
      apply Hcomplete. unfold inChunks. unfold chunkCount in *. lia.
  - apply Forall_forall. by intros job (j & Hj & ->)%jobsFrom_elem.
  - eexists. cbn [R.downloads]. split.
    + by apply list_lookup_middle.
    + done.
Qed.

Lemma newDownload_chunks_witness :
  queued 3 0 ex_renter (ex_params 25000 30 50) (fun dp r' jobs =>
    let minChunk := 30 / 20 in
    let maxChunk := (30 + 50 - 1) / 20 in
    C.staticChunkIndex <$> jobs = seqZ minChunk (maxChunk - minChunk + 1) /\
    Forall (chunkMapSpec (fun id => id) ex_file) jobs /\
    Forall (fun job => C.download job = dp) jobs /\
    exists d, R.downloads r' !! dp = Some d /\
              D.chunksRemaining d = maxChunk - minChunk + 1).
Proof.
  apply (newDownload_chunks 3 0 ex_renter (ex_params 25000 30 50) ex_file).
  - apply ex_file_wf.
  - apply ex_params_validated; lia.
  - unfold enoughFuel. vm_compute. lia.
Defined.

(** C10, as claimed, fails: for a request of 2^63+1 bytes over two chunks the
    int64 write offset of the second chunk wraps around to -2^63. *)
Lemma write_ranges_counterexample :
  wf_file ex_huge_file /\
  validated (ex_huge_params 0 (2 ^ 63 + 1)) ex_huge_file /\
  ~ queued 3 0 ex_renter (ex_huge_params 0 (2 ^ 63 + 1)) (fun _ _ jobs =>
      writeRangesSpec (2 ^ 63 + 1) jobs).
Proof.
  split; [|split].
  - unfold wf_file. cbn. rewrite modulus_val. lia.
  - unfold validated. cbn. repeat split; lia.
  - intros (dp & r' & jobs & Hrun & Hheap & HQ & _).
    vm_compute in Hrun. injection Hrun as <- <-.
    cbn in Hheap. subst jobs.
    destruct (HQ 1%nat _ eq_refl) as [_ H].
    vm_compute in H. discriminate H.
Qed.

(** C10, amended. For a validated request of at most 2^63 bytes, every queued
    job writes a non-empty range that starts at the sum of the fetch lengths
    of the jobs before it (so the first starts at 0), and the fetch lengths
    add up to the requested length. *)
Theorem newDownload_write_ranges fuel now r params f :
  wf_file f -> validated params f -> enoughFuel fuel params f ->
  P.length params <= 2 ^ 63 ->
  queued fuel now r params (fun _ _ jobs =>
    C.staticChunkIndex <$> jobs = chunkRange params f /\
    writeRangesSpec (P.length params) jobs).
Proof.
  intros Hwf Hval Hfuel Hlen. apply (queued_validated _ _ _ _ f); [done..|].
  intros cms lg _ _. split; first by apply chunkRange_jobs.
  pose proof (chunk_bounds params f Hwf Hval) as (Hb1 & Hb2).
  assert (Hn : Z.of_nat (Z.to_nat (chunkCount params f)) = chunkCount params f).
  { unfold chunkCount. lia. }
  split.
  - intros j job Hjob.
    assert (j < Z.to_nat (chunkCount params f))%nat as Hj.
    { apply lookup_lt_Some in Hjob. by rewrite jobsFrom_length in Hjob. }
    rewrite jobsFrom_lookup in Hjob by done. injection Hjob as <-.
    cbn [C.staticFetchLength C.staticWriteOffset jobAt]. split.
    + apply (fetchLengthAt_range params f Hwf Hval). unfold chunkCount in *. lia.
    + rewrite fmap_take, jobsFrom_fetchLength, <- fmap_take, take_seqZ by lia.
      change 0 with (I64.wrap 0) at 1. rewrite endOffset_sum, Z.add_0_l.
      apply i64_wrap_id.
      pose proof (prefixSum_bounds params f Hwf Hval j ltac:(lia)). lia.
  - rewrite jobsFrom_fetchLength. apply (prefixSum_total params f Hwf Hval).
Qed.

Lemma newDownload_write_ranges_witness :
  queued 3 0 ex_renter (ex_params 25000 30 50) (fun _ _ jobs =>
    C.staticChunkIndex <$> jobs = chunkRange (ex_params 25000 30 50) ex_file /\
    writeRangesSpec 50 jobs).
Proof.
  apply (newDownload_write_ranges 3 0 ex_renter (ex_params 25000 30 50) ex_file).
  - apply ex_file_wf.
  - apply ex_params_validated; lia.
  - unfold enoughFuel. vm_compute. lia.
  - cbn. lia.
Defined.

Lemma Compose_not_nil x e : Compose (Some x) e <> None.
Proof. by destruct e. Qed.

Lemma managedFail_total closeErr d e :
  exists d' effs, managedFail closeErr d e = Ok (d', effs) /\
    staticComplete d' = true /\
    closes effs = (if staticComplete d then 0 else 1)%nat /\
    (staticComplete d = true -> (Err d = None <-> Err d' = None)).
Proof.
  unfold managedFail, staticComplete, Err.
  destruct d as [? ? ? [] [x|] ? ? ? ? ? ? ? ? ? ? ?]; cbn;
    eexists _, _; (split; first done); cbn; repeat split; try done;
    try (by destruct closeErr); by destruct e.
Qed.

(** C2. [managedFail] always returns and leaves the download complete. On a
    download complete with an error it only composes the new error onto the
    stored one (which stays non-nil); on a download complete without error it
    only logs at critical severity; otherwise it stores the error, closes the
    completion channel once and closes the destination once. Over any run of
    calls the channel is closed at most once (never on a complete download),
    and once complete, whether Err() is nil no longer changes. *)
Theorem managedFail_idempotent_cumulative closeErr d e :
  (exists d' effs,
     managedFail closeErr d e = Ok (d', effs) /\
     staticComplete d' = true /\
     match staticComplete d, D.err d with
     | true, Some x =>
         d' = D.set_err (Compose (Some x) e) d /\ effs = [] /\ Err d' <> None
     | true, None =>
         d' = d /\
         effs = [ELog (LogCritical
           "download is marked as completed without error, but then managedFail was called with err:" e)]
     | false, _ =>
         d' = D.set_completeChan ChanClosed (D.set_err e d) /\ Err d' = e /\
         closes effs = 1%nat /\ destinationCloses effs = 1%nat
     end) /\
  (forall calls, exists d' effs,
     managedFail_run calls d = Ok (d', effs) /\
     (closes effs <= 1)%nat /\
     if staticComplete d
     then closes effs = 0%nat /\ staticComplete d' = true /\
          (Err d = None <-> Err d' = None)
     else calls <> [] -> closes effs = 1%nat /\ staticComplete d' = true).
Proof.
  split.
  - unfold managedFail, staticComplete, Err.
    destruct d as [? ? ? [] [x|] ? ? ? ? ? ? ? ? ? ? ?]; cbn;
      eexists _, _; (split; first done); cbn; repeat split; try done;
      try (by destruct e); by destruct closeErr.
  - intros calls. revert d.
    induction calls as [|[ce e'] calls IH]; intros d.
    + exists d, []. split; first done. cbn. split; first lia.
      destruct (staticComplete d); by repeat split.
    + destruct (managedFail_total ce d e') as (d1 & effs1 & Hrun1 & Hc1 & Hcl1 & Hnil1).
      destruct (IH d1) as (d2 & effs2 & Hrun2 & _ & Hinv2).
      rewrite Hc1 in Hinv2. destruct Hinv2 as (Hcl2 & Hc2 & Hnil2).
      exists d2, (effs1 ++ effs2). cbn [managedFail_run].
      rewrite Hrun1. cbn [mbind result_bind]. rewrite Hrun2. cbn [mbind result_bind].
      split; first done.
      assert (Hcl : closes (effs1 ++ effs2) = (closes effs1 + closes effs2)%nat).
      { clear. induction effs1 as [|[] effs1 IH]; cbn; by rewrite ?IH. }
      rewrite Hcl, Hcl1, Hcl2.
      destruct (staticComplete d) eqn:Hd.
      * split; first lia. repeat split; try done.
        -- intros H. by apply Hnil2, Hnil1.
        -- intros H. by apply Hnil1, Hnil2.
      * split; first lia. intros _. split; [lia | done].
Qed.

(** C5, as claimed, fails: after [Download] has returned through the shutdown
    case the download is still incomplete and carries no error, and the
    history reports it so. *)
Lemma shutdown_counterexample :
  exists d r1 r2 infos,
    Download_start 3 0 None ex_renter (ex_request 30 50) = Ok (d, r1) /\
    Download_wait CaseStop (shutdownFired r1) d = Some (Some errInterrupted, r2) /\
    ~ shutdownFailsDownload (shutdownFired r1) d /\
    DownloadHistory r2 = Ok infos /\
    DI.Completed <$> infos = [false] /\
    DI.Error <$> infos = [""].
Proof.
  eexists _, _, _, _. split; first by vm_compute.
  split; first by vm_compute.
  split.
  - intros H. destruct (H _ _ eq_refl) as (_ & dl & Hdl & Hc & _).
    vm_compute in Hdl. injection Hdl as <-. discriminate Hc.
  - split; first by vm_compute. split; reflexivity.
Qed.

(** C5, amended. When the shutdown signal has fired and the final select of
    [Download] takes that case, [Download] returns the error
    "download interrupted by shutdown" and leaves the renter, and with it the
    pending download, as it was. *)
Theorem Download_wait_shutdown r d dl :
  R.downloads r !! d = Some dl ->
  R.stopChan r = ChanClosed ->
  Download_wait CaseStop r d = Some (Some errInterrupted, r) /\
  Error errInterrupted = "download interrupted by shutdown".
Proof.
  intros Hd Hstop. unfold Download_wait. rewrite Hd. cbn. by rewrite Hstop.
Qed.

Lemma Download_wait_shutdown_witness :
  Download_wait CaseStop
    (shutdownFired (R.mk ∅ (fun id => id) [ex_download ChanOpen None] [] [0%nat] []
                         false [] ChanOpen)) 0%nat
  = Some (Some errInterrupted,
          shutdownFired (R.mk ∅ (fun id => id) [ex_download ChanOpen None] [] [0%nat] []
                              false [] ChanOpen)) /\
  Error errInterrupted = "download interrupted by shutdown".
Proof.
  apply (Download_wait_shutdown _ 0%nat (ex_download ChanOpen None)); reflexivity.
Defined.

(** C9. When the history pointers resolve to the downloads [ds] (oldest
    first), [DownloadHistory] returns one entry per download, most recent
    first; each entry copies the download's current fields, with the empty
    string for a nil error and the error's message otherwise; and a download
    that [Download] has just appended comes first. *)
Theorem DownloadHistory_most_recent_first r ds :
  resolves r ds ->
  DownloadHistory r = Ok (downloadInfo <$> reverse ds) /\
  (forall d,
     DI.Error (downloadInfo d) =
       match Err d with None => "" | Some e => Error e end /\
     DI.Destination (downloadInfo d) = D.destinationString d /\
     DI.DestinationType (downloadInfo d) = D.destinationType d /\
     DI.Length (downloadInfo d) = D.staticLength d /\
     DI.Offset (downloadInfo d) = D.staticOffset d /\
     DI.SiaPath (downloadInfo d) = D.staticSiaPath d /\
     DI.Completed (downloadInfo d) = staticComplete d /\
     DI.StartTime (downloadInfo d) = D.staticStartTime d /\
     DI.EndTime (downloadInfo d) = D.endTime d /\
     DI.Received (downloadInfo d) = D.atomicDataReceived d /\
     DI.TotalDataTransfered (downloadInfo d) = D.atomicTotalDataTransfered d) /\
  (forall fuel now openErr p d r',
     Download_start fuel now openErr r p = Ok (d, r') ->
     exists dnew,
       R.downloads r' !! d = Some dnew /\
       R.downloadHistory r' = R.downloadHistory r ++ [d] /\
       DownloadHistory r' = Ok (downloadInfo dnew :: (downloadInfo <$> reverse ds))).
Proof.
  intros Hres. split; first by apply DownloadHistory_resolved.
  split.
  - intros d. unfold downloadInfo. by destruct (Err d).
  - intros fuel now openErr p d r' Hstart.
    apply Download_start_frame in Hstart as (-> & Hh & dnew & Hd).
    exists dnew. rewrite Hd. split; first by apply list_lookup_middle.
    split; first done.
    rewrite (DownloadHistory_resolved r' (ds ++ [dnew])).
    + by rewrite reverse_app.
    + unfold resolves. rewrite Hh, Hd. apply Forall2_app.
      * eapply Forall2_impl; first exact Hres.
        intros q dl Hq. cbn in Hq. rewrite lookup_app_l; first done.
        by eapply lookup_lt_Some.
      * constructor; last constructor. by apply list_lookup_middle.
Qed.

Lemma DownloadHistory_most_recent_first_witness :
  DownloadHistory ex_history_renter =
    Ok [downloadInfo (ex_download ChanClosed (Some errInterrupted));
        downloadInfo (ex_download ChanOpen None)].
Proof.
  apply (DownloadHistory_most_recent_first ex_history_renter
           [ex_download ChanOpen None; ex_download ChanClosed (Some errInterrupted)]).
  unfold resolves. cbn. repeat constructor.
Defined.

(** C6. The checks at the head of [Download] return each validation error
    exactly when its condition holds and none of the conditions before it
    does, in the order: unknown path, async with an http writer, http writer
    with a destination, neither of them, relative destination; validation
    succeeds only when none of the five holds. *)
Theorem Download_validate_errors r p :
  let http := RP.Httpwriter p <> None in
  let dest := RP.Destination p in
  let noFile := R.files r !! RP.SiaPath p = None in
  let asyncHTTP := RP.Async p = true /\ http in
  let both := http /\ dest <> "" in
  let neither := ~ http /\ dest = "" in
  let relative := dest <> "" /\ IsAbs dest = false in
  (Download_validate r p =
     Fail (ErrNew ("no file with that path: " +:+ RP.SiaPath p)) <-> noFile) /\
  (Download_validate r p = Fail (ErrNew "cannot async download to http response")
     <-> ~ noFile /\ asyncHTTP) /\
  (Download_validate r p =
     Fail (ErrNew "destination cannot be specified when downloading to http response")
     <-> ~ noFile /\ ~ asyncHTTP /\ both) /\
  (Download_validate r p = Fail (ErrNew "destination not supplied")
     <-> ~ noFile /\ ~ asyncHTTP /\ ~ both /\ neither) /\
  (Download_validate r p = Fail (ErrNew "destination must be an absolute path")
     <-> ~ noFile /\ ~ asyncHTTP /\ ~ both /\ ~ neither /\ relative) /\
  (forall f len, Download_validate r p = Ok (f, len) ->
     ~ noFile /\ ~ asyncHTTP /\ ~ both /\ ~ neither /\ ~ relative).
Proof.
  cbv zeta. unfold Download_validate, is_empty.
  destruct (R.files r !! RP.SiaPath p) as [f|] eqn:Hf.
  - assert (Hsome : Some f <> None) by done.
    destruct (RP.Async p) eqn:Ha;
      destruct (RP.Httpwriter p) as [w|] eqn:Hw;
      rewrite ?bool_decide_eq_true_2, ?bool_decide_eq_false_2 by done;
      destruct (String.eqb_spec (RP.Destination p) "") as [Hd|Hd];
      destruct (IsAbs (RP.Destination p)) eqn:Habs;
      cbn [andb orb negb];
      repeat match goal with
             | |- context [if ?b then _ else _] => destruct b
             end;
      cbn [String.append];
      repeat split; intros; try discriminate; try done; intuition congruence.
  - cbn [String.append].
    repeat split; intros; try discriminate; try done; intuition congruence.
Qed.

(** Where uint64 arithmetic does not wrap, the checks of [Download] do reject
    every request that starts at or past the end of the file. *)
Lemma Download_validate_rejects_without_wrap r p f :
  R.files r !! RP.SiaPath p = Some f ->
  0 <= F.size f <= RP.Offset p ->
  0 < RP.Length p ->
  RP.Offset p + RP.Length p < U64.modulus ->
  exists e, Download_validate r p = Fail e.
Proof.
  intros Hf Hoff Hlen Hfit. unfold Download_validate. rewrite Hf.
  assert (U64.add (RP.Offset p) (RP.Length p) = RP.Offset p + RP.Length p) as Hadd.
  { apply u64_wrap_id. unfold U64.inrange. lia. }
  replace (RP.Length p =? 0) with false by lia. rewrite Hadd.
  replace (RP.Offset p + RP.Length p >? F.size f) with true by lia.
  rewrite orb_true_r.
  repeat match goal with
         | |- context [if ?b then _ else _] => destruct b
         end; eauto.
Qed.

(** C1, at the failing input. On a 100-byte file, offset 101 with the length
    sentinel 0 passes the checks of [Download]: the length expands to
    100 - 101 = 2^64 - 1 in uint64, and 101 + (2^64 - 1) wraps around to 100,
    which is not past the end; the same holds for the explicit length
    2^64 - 1, and [newDownload] accepts the request too, creating a download
    of 2^64 - 1 bytes from offset 101 with no chunk to fetch. *)
Theorem Download_offset_past_end_accepted :
  Download_validate ex_renter (ex_request 101 0) = Ok (ex_file, 2 ^ 64 - 1) /\
  Download_validate ex_renter (ex_request 101 (2 ^ 64 - 1)) = Ok (ex_file, 2 ^ 64 - 1) /\
  exists d r' dl,
    Download_start 3 0 None ex_renter (ex_request 101 0) = Ok (d, r') /\
    R.downloads r' !! d = Some dl /\
    D.staticOffset dl = 101 /\ D.staticLength dl = 2 ^ 64 - 1 /\
    D.chunksRemaining dl = 0 /\ R.downloadHeap r' = [].
Proof.
  split; first by vm_compute. split; first by vm_compute.
  eexists _, _, _. split; first by vm_compute.
  split; first by vm_compute. by vm_compute.
Qed.

(** * Further properties of the download code *)

(** ** What the loops of [newDownload] can and cannot do *)

Lemma foldlM_never_fail {A B} (g : A -> B -> result A) (l : list B) :
  (forall a x e, g a x <> Fail e) -> forall a e, foldlM g a l <> Fail e.
Proof.
  intros Hg. induction l as [|x l IH]; intros a e; cbn [foldlM]; first done.
  destruct (g a x) eqn:E; cbn [mbind result_bind]; try done.
  by apply Hg in E.
Qed.

Lemma addPiece_never_fail minChunk maxChunk rid st p e :
  addPiece minChunk maxChunk rid st p <> Fail e.
Proof.
  unfold addPiece. destruct st as [cms lg].
  destruct (_ && _); last done. by destruct (cms !! _).
Qed.

Lemma assembleChunkMaps_never_fail ResolveID minChunk maxChunk f lg e :
  assembleChunkMaps ResolveID minChunk maxChunk f lg <> Fail e.
Proof.
  unfold assembleChunkMaps. apply foldlM_never_fail. intros a c e'.
  unfold addContract. apply foldlM_never_fail. intros. apply addPiece_never_fail.
Qed.

(** One iteration either panics or appends one job for chunk [i], which
    points at the destination of the request and at the new download. *)
Lemma queueChunk_shape params f dp minChunk maxChunk cms i st :
  match queueChunk params f dp minChunk maxChunk cms i st with
  | Ok st' =>
      exists job,
        ls_heap st' = ls_heap st ++ [job] /\
        C.destination job = P.destination params /\
        C.download job = dp /\
        C.staticChunkIndex job = i /\
        ls_d st' = D.set_chunksRemaining
                     (U64.add (D.chunksRemaining (ls_d st)) 1) (ls_d st) /\
        ls_wake st' = true
  | Panic _ => True
  | Fail _ | OutOfFuel => False
  end.
Proof.
  unfold queueChunk, umod.
  destruct (cms !! _); last done.
  destruct (_ <? 0); first done.
  destruct (F.staticChunkSize f =? 0), (i =? minChunk), (i =? maxChunk);
    cbn [mbind result_bind]; try done;
    try destruct (negb _); cbn [mbind result_bind];
    eexists; cbn; by repeat split.
Qed.

Lemma queueChunks_shape params f dp minChunk maxChunk cms fuel :
  forall i st st',
    queueChunks fuel params f dp minChunk maxChunk cms i st = Ok st' ->
    exists jobs n,
      ls_heap st' = ls_heap st ++ jobs /\
      Forall (fun job => C.destination job = P.destination params /\
                         C.download job = dp) jobs /\
      ls_d st' = D.set_chunksRemaining n (ls_d st) /\
      ls_wake st' = (match jobs with [] => ls_wake st | _ => true end).
Proof.
  induction fuel as [|fuel IH]; intros i st st' H; cbn [queueChunks] in H.
  - destruct (i <=? maxChunk); first done. injection H as <-.
    exists [], (D.chunksRemaining (ls_d st)).
    by rewrite app_nil_r, set_chunksRemaining_same.
  - destruct (i <=? maxChunk).
    + pose proof (queueChunk_shape params f dp minChunk maxChunk cms i st) as Hq.
      destruct (queueChunk _ _ _ _ _ _ _ _) as [st1| | |];
        cbn [mbind result_bind] in H; try done.
      destruct Hq as (job & Hh & Hd & Hp & _ & Hls & Hw).
      destruct (IH _ _ _ H) as (jobs & n & Hh' & Hall & Hls' & Hw').
      exists (job :: jobs), n. rewrite Hh', Hh, <- app_assoc. split; first done.
      split; first by constructor.
      split; first by rewrite Hls', Hls.
      rewrite Hw'. by destruct jobs.
    + injection H as <-.
      exists [], (D.chunksRemaining (ls_d st)).
      by rewrite app_nil_r, set_chunksRemaining_same.
Qed.

Lemma queueChunks_never_fail params f dp minChunk maxChunk cms fuel :
  forall i st e, queueChunks fuel params f dp minChunk maxChunk cms i st <> Fail e.
Proof.
  induction fuel as [|fuel IH]; intros i st e; cbn [queueChunks].
  - by destruct (i <=? maxChunk).
  - destruct (i <=? maxChunk); last done.
    pose proof (queueChunk_shape params f dp minChunk maxChunk cms i st) as Hq.
    destruct (queueChunk _ _ _ _ _ _ _ _); cbn [mbind result_bind]; try done;
      try apply IH.
Qed.

(** The log is only appended to while the chunk maps are assembled. *)
Lemma addPieces_log minChunk maxChunk (l : list (FileContractID * pieceData)) :
  forall cms lg cms' lg',
    foldlM (λ st e, addPiece minChunk maxChunk e.1 st e.2) (cms, lg) l = Ok (cms', lg') ->
    exists extra, lg' = lg ++ extra.
Proof.
  induction l as [|[rid p] l IH]; intros cms lg cms' lg' H; cbn [foldlM] in H.
  - injection H as <- <-. exists []. by rewrite app_nil_r.
  - destruct (addPiece minChunk maxChunk rid (cms, lg) p) as [[cms1 lg1]| | |] eqn:E;
      cbn [mbind result_bind fst snd] in H; rewrite ?E in H;
      cbn [mbind result_bind] in H; try done.
    destruct (IH _ _ _ _ H) as (extra & ->).
    unfold addPiece in E.
    destruct (_ && _).
    + destruct (cms !! _); last done.
      injection E as <- <-. case_bool_decide.
      * eexists. by rewrite <- app_assoc.
      * by eexists.
    + injection E as <- <-. by eexists.
Qed.

(** The shape of every successful [newDownload], validated or not. *)
Lemma newDownload_shape fuel now r params dp r' :
  newDownload fuel now r params = Ok (dp, r') ->
  exists f jobs n extra wake,
    P.file params = Some f /\
    dp = length (R.downloads r) /\
    r' = R.mk (R.files r) (R.hostContractor r)
              (R.downloads r ++ [D.set_chunksRemaining n (freshDownload now params f)])
              (R.sinks r) (R.downloadHistory r) (R.downloadHeap r ++ jobs)
              wake (R.log r ++ extra) (R.stopChan r) /\
    Forall (fun job => C.destination job = P.destination params /\
                       C.download job = dp) jobs /\
    wake = (match jobs with [] => R.newDownloads r | _ => true end).
Proof.
  unfold newDownload. intros H.
  destruct (P.file params) as [f|]; last done.
  destruct (P.length params <=? 0); first done.
  destruct (P.offset params <? 0); first done.
  destruct (_ >? _); first done.
  unfold udiv in H.
  destruct (F.staticChunkSize f =? 0); cbn [mbind result_bind] in H; first done.
  destruct (assembleChunkMaps _ _ _ _ _) as [[cms lg]| | |] eqn:Hasm;
    cbn [mbind result_bind] in H; try done.
  destruct (queueChunks _ _ _ _ _ _ _ _ _) as [st| | |] eqn:Hq;
    cbn [mbind result_bind] in H; try done.
  injection H as <- <-.
  apply queueChunks_shape in Hq as (jobs & n & Hh & Hall & Hd & Hw).
  cbn [ls_heap ls_d ls_wake] in Hh, Hd, Hw.
  unfold assembleChunkMaps in Hasm. rewrite assemble_flat in Hasm.
  apply addPieces_log in Hasm as (extra & ->).
  exists f, jobs, n, extra, (ls_wake st).
  rewrite Hh, Hd. by repeat split.
Qed.

(** ** The checks of [newDownload] *)

(** The errors [newDownload] can return, read off its four checks: past
    them, neither the division, the chunk maps nor the queueing loop returns
    a Go error. *)
Lemma newDownload_fail_inv fuel now r params e :
  0 <= P.offset params ->
  newDownload fuel now r params = Fail e ->
  match P.file params with
  | None => e = errNoFile
  | Some f =>
      (P.length params <= 0 /\ e = errLength) \/
      (0 < P.length params /\
       U64.add (P.offset params) (P.length params) > F.size f /\
       e = errBoundary)
  end.
Proof.
  intros Hoff. unfold newDownload. destruct (P.file params) as [f|].
  - destruct (Z.leb_spec (P.length params) 0) as [Hl|Hl].
    { intros [= <-]. by left. }
    destruct (Z.ltb_spec (P.offset params) 0) as [Ho|Ho]; first lia.
    destruct (U64.add (P.offset params) (P.length params) >? F.size f) eqn:Hb.
    { intros [= <-]. right. repeat split; [done | lia]. }
    intros H. exfalso. unfold udiv in H.
    destruct (F.staticChunkSize f =? 0); cbn [mbind result_bind] in H; first done.
    destruct (assembleChunkMaps _ _ _ _ _) as [[cms lg]| | |] eqn:Hasm;
      cbn [mbind result_bind] in H; try done.
    + destruct (queueChunks _ _ _ _ _ _ _ _ _) eqn:Hq;
        cbn [mbind result_bind] in H; try done.
      by apply queueChunks_never_fail in Hq.
    + by apply assembleChunkMaps_never_fail in Hasm.
  - by intros [= <-].
Qed.

(** X1. [newDownload] returns a Go error exactly when the file is nil, or the
    length is zero, or offset + length, computed in uint64, exceeds the file
    size - with the matching message and in that order; the error for a
    negative offset can never be returned. *)
Theorem newDownload_errors fuel now r params e :
  0 <= P.offset params ->
  (newDownload fuel now r params = Fail e <->
     match P.file params with
     | None => e = errNoFile
     | Some f =>
         (P.length params <= 0 /\ e = errLength) \/
         (0 < P.length params /\
          U64.add (P.offset params) (P.length params) > F.size f /\
          e = errBoundary)
     end) /\
  newDownload fuel now r params <> Fail errNegative.
Proof.
  intros Hoff. split; [split|].
  - by apply newDownload_fail_inv.
  - unfold newDownload. destruct (P.file params) as [f|]; last by intros ->.
    intros [[Hl ->]|(Hl & Hb & ->)].
    + destruct (Z.leb_spec (P.length params) 0); [done | lia].
    + destruct (Z.leb_spec (P.length params) 0); first lia.
      destruct (Z.ltb_spec (P.offset params) 0); first lia.
      destruct (U64.add (P.offset params) (P.length params) >? F.size f) eqn:Hb';
        [done | lia].
  - intros H. apply newDownload_fail_inv in H; last done.
    destruct (P.file params); last done.
    by destruct H as [[_ H]|(_ & _ & H)].
Qed.

Lemma newDownload_errors_witness :
  (newDownload 3 0 ex_renter (ex_params 25000 90 20) = Fail errBoundary <->
     (20 <= 0 /\ errBoundary = errLength) \/
     (0 < 20 /\ U64.add 90 20 > 100 /\ errBoundary = errBoundary)) /\
  newDownload 3 0 ex_renter (ex_params 25000 90 20) <> Fail errNegative.
Proof.
  apply (newDownload_errors 3 0 ex_renter (ex_params 25000 90 20) errBoundary).
  cbn. lia.
Defined.

(** X2. A request that passes the checks of [newDownload] on a file whose
    chunk size is 0 makes [newDownload] panic on the division that computes
    the first chunk: it neither returns an error nor a download. *)
Theorem newDownload_zero_chunk_size_panics fuel now r params f :
  P.file params = Some f ->
  0 <= P.offset params -> 0 < P.length params ->
  U64.add (P.offset params) (P.length params) <= F.size f ->
  F.staticChunkSize f = 0 ->
  newDownload fuel now r params = Panic "integer divide by zero".
Proof.
  intros Hf Ho Hl Hb Hcs. unfold newDownload. rewrite Hf.
  destruct (Z.leb_spec (P.length params) 0); first lia.
  destruct (Z.ltb_spec (P.offset params) 0); first lia.
  destruct (U64.add (P.offset params) (P.length params) >? F.size f) eqn:E; first lia.
  unfold udiv. by rewrite Hcs.
Qed.

Lemma newDownload_zero_chunk_size_panics_witness :
  newDownload 3 0 ex_renter
    (P.mk 0%nat "file" "/tmp/x" (Some ex_zero_file) 25000 10 true 0 2 5)
  = Panic "integer divide by zero".
Proof.
  apply (newDownload_zero_chunk_size_panics 3 0 ex_renter _ ex_zero_file);
    cbn; try reflexivity; try lia.
  vm_compute. discriminate.
Defined.

(** ** The checks of [Download], where nothing wraps around *)

Lemma u64_sub_pos a b :
  U64.inrange a -> U64.inrange b -> a <> b -> 0 < U64.sub a b < U64.modulus.
Proof.
  unfold U64.inrange, U64.sub, U64.wrap. rewrite modulus_val. intros Ha Hb Hab.
  destruct (Z_lt_le_dec a b).
  - replace (a - b) with (a - b + 18446744073709551616 + (-1) * 18446744073709551616)
      by lia.
    rewrite Z_mod_plus_full, Z.mod_small; lia.
  - rewrite Z.mod_small; lia.
Qed.

(** What a request that passed the checks of [Download] satisfies, in the
    uint64 arithmetic of the code. *)
Lemma Download_validate_inv r p f len :
  Download_validate r p = Ok (f, len) ->
  R.files r !! RP.SiaPath p = Some f /\
  RP.Offset p <> F.size f /\
  len = (if RP.Length p =? 0 then U64.sub (F.size f) (RP.Offset p)
         else RP.Length p) /\
  U64.add (RP.Offset p) len <= F.size f.
Proof.
  unfold Download_validate. intros H.
  destruct (R.files r !! RP.SiaPath p) as [f'|]; last done.
  repeat match type of H with
         | (if ?b then Fail _ else _) = _ => destruct b eqn:?; first done
         end.
  injection H as <- <-. split; first done.
  apply orb_false_iff in Heqb4 as [_ Hsum].
  repeat split; lia.
Qed.

(** X3. When offset + length does not exceed 2^64 and the offset lies in the
    file, a request that passes the checks of [Download] is a valid one: the
    file is the one stored under the path, the length is the requested one
    (the rest of the file for the sentinel 0), it is positive, the offset is
    before the end and offset + length stays within the file. *)
Theorem Download_validate_sound r p f len :
  Download_validate r p = Ok (f, len) ->
  0 <= RP.Offset p <= F.size f -> F.size f < U64.modulus ->
  0 <= RP.Length p -> RP.Offset p + RP.Length p < U64.modulus ->
  R.files r !! RP.SiaPath p = Some f /\
  len = (if RP.Length p =? 0 then F.size f - RP.Offset p else RP.Length p) /\
  0 < len /\ RP.Offset p < F.size f /\ RP.Offset p + len <= F.size f.
Proof.
  unfold Download_validate. intros H Ho Hs Hl Hfit.
  destruct (R.files r !! RP.SiaPath p) as [f'|]; last done.
  repeat match type of H with
         | (if ?b then Fail _ else _) = _ => destruct b eqn:?; first done
         end.
  injection H as <- <-. split; first done.
  apply orb_false_iff in Heqb4 as [_ Hsum].
  destruct (Z.eqb_spec (RP.Length p) 0) as [Hz|Hz].
  - assert (U64.sub (F.size f') (RP.Offset p) = F.size f' - RP.Offset p) as Hsub.
    { apply u64_wrap_id. unfold U64.inrange. lia. }
    rewrite Hsub in *. repeat split; lia.
  - assert (U64.add (RP.Offset p) (RP.Length p) = RP.Offset p + RP.Length p) as Hadd.
    { apply u64_wrap_id. unfold U64.inrange. lia. }
    rewrite Hadd in Hsum. repeat split; lia.
Qed.

Lemma Download_validate_sound_witness :
  R.files ex_renter !! "movie" = Some ex_file /\
  100 = (if 0 =? 0 then 100 - 0 else 0) /\
  0 < 100 /\ 0 < 100 /\ 0 + 100 <= 100.
Proof.
  apply (Download_validate_sound ex_renter (ex_request 0 0) ex_file 100);
    cbn; try lia.
  - by vm_compute.
  - rewrite modulus_val. lia.
  - rewrite modulus_val. lia.
Defined.

(** X4. [Download] never returns one of the errors of [newDownload]: for
    uint64 parameters and file size, whatever passes the checks of [Download]
    passes those of [newDownload], so an error of [Download] before it blocks
    is a validation error of [Download] itself or the error of opening the
    destination file. *)
Theorem Download_start_errors fuel now openErr r p e :
  requestInRange p ->
  (forall f, R.files r !! RP.SiaPath p = Some f -> U64.inrange (F.size f)) ->
  Download_start fuel now openErr r p = Fail e ->
  Download_validate r p = Fail e \/
  (RP.Httpwriter p = None /\ openErr = Some e).
Proof.
  intros [Ho Hl] Hsize H. unfold Download_start in H.
  destruct (Download_validate r p) as [[f len]| | |] eqn:Hv;
    cbn [mbind result_bind] in H; try done; last by (left; congruence).
  assert (Hf : R.files r !! RP.SiaPath p = Some f /\
               0 < len /\ U64.add (RP.Offset p) len <= F.size f).
  { unfold Download_validate in Hv.
    destruct (R.files r !! RP.SiaPath p) as [f'|] eqn:Hf'; last done.
    repeat match type of Hv with
           | (if ?b then Fail _ else _) = _ => destruct b eqn:?; first done
           end.
    injection Hv as <- <-. split; first done.
    apply orb_false_iff in Heqb4 as [_ Hsum].
    specialize (Hsize _ eq_refl).
    destruct (Z.eqb_spec (RP.Length p) 0) as [Hz|Hz].
    - pose proof (u64_sub_pos (F.size f') (RP.Offset p) Hsize Ho ltac:(lia)).
      split; lia.
    - unfold U64.inrange in Hl. split; lia. }
  destruct Hf as (Hf & Hlen & Hsum).
  destruct (RP.Httpwriter p) as [w|] eqn:Hw; cbn [mbind result_bind] in H.
  - exfalso.
    match type of H with
    | mbind _ ?m = _ => destruct m as [[d0 r0]| | |] eqn:Hnew;
                        cbn [mbind result_bind] in H; try done
    end.
    injection H as ->.
    apply newDownload_fail_inv in Hnew; last (cbn; unfold U64.inrange in Ho; lia).
    cbn in Hnew. destruct Hnew as [[? _]|(_ & ? & _)]; lia.
  - destruct openErr as [oe|]; cbn [mbind result_bind] in H.
    + injection H as ->. by right.
    + exfalso.
      match type of H with
      | mbind _ ?m = _ => destruct m as [[d0 r0]| | |] eqn:Hnew;
                          cbn [mbind result_bind] in H; try done
      end.
      injection H as ->.
      apply newDownload_fail_inv in Hnew; last (cbn; unfold U64.inrange in Ho; lia).
      cbn in Hnew. destruct Hnew as [[? _]|(_ & ? & _)]; lia.
Qed.

Lemma Download_start_errors_witness :
  Download_validate ex_renter (ex_request 100 0) = Fail (ErrNew "offset equals filesize") \/
  (RP.Httpwriter (ex_request 100 0) = None /\
   None = Some (ErrNew "offset equals filesize")).
Proof.
  apply (Download_start_errors 3 0 None ex_renter (ex_request 100 0)).
  - unfold requestInRange, U64.inrange. cbn. rewrite modulus_val. lia.
  - intros f Hf. vm_compute in Hf. injection Hf as <-.
    unfold U64.inrange. cbn. rewrite modulus_val. lia.
  - by vm_compute.
Defined.

(** ** What [Download] leaves behind before it blocks *)

Lemma Download_start_shape fuel now openErr r p d r' :
  Download_start fuel now openErr r p = Ok (d, r') ->
  exists f len jobs n extra wake,
    Download_validate r p = Ok (f, len) /\
    d = length (R.downloads r) /\
    r' = R.mk (R.files r) (R.hostContractor r)
              (R.downloads r ++
                 [D.set_chunksRemaining n
                    (freshDownload now (Download_params r p f len) f)])
              (R.sinks r ++ [Download_sink p])
              (R.downloadHistory r ++ [d]) (R.downloadHeap r ++ jobs)
              wake (R.log r ++ extra) (R.stopChan r) /\
    Forall (fun job => C.destination job = length (R.sinks r) /\
                       C.download job = d) jobs /\
    wake = (match jobs with [] => R.newDownloads r | _ => true end).
Proof.
  unfold Download_start. intros H.
  destruct (Download_validate r p) as [[f len]| | |];
    cbn [mbind result_bind] in H; try done.
  assert (Hnew : exists d0 r0,
    newDownload fuel now
      (R.mk (R.files r) (R.hostContractor r) (R.downloads r)
            (R.sinks r ++ [Download_sink p]) (R.downloadHistory r)
            (R.downloadHeap r) (R.newDownloads r) (R.log r) (R.stopChan r))
      (Download_params r p f len) = Ok (d0, r0) /\
    d = d0 /\
    r' = R.mk (R.files r0) (R.hostContractor r0) (R.downloads r0) (R.sinks r0)
              (R.downloadHistory r0 ++ [d0]) (R.downloadHeap r0)
              (R.newDownloads r0) (R.log r0) (R.stopChan r0)).
  { unfold Download_params, Download_sink.
    destruct (RP.Httpwriter p) as [w|]; [|destruct openErr as [oe|]];
      cbn [mbind result_bind] in H; try done;
      match type of H with
      | mbind _ ?m = _ => destruct m as [[d0 r0]| | |] eqn:Hnew;
                          cbn [mbind result_bind] in H; try done
      end;
      injection H as <- <-; by eexists _, _. }
  destruct Hnew as (d0 & r0 & Hnew & -> & ->).
  apply newDownload_shape in Hnew
    as (f' & jobs & n & extra & wake & Hf & -> & -> & Hall & Hw).
  cbn in Hf. injection Hf as <-.
  exists f, len, jobs, n, extra, wake. cbn. by repeat split.
Qed.

(** X5. A successful [Download] creates exactly one destination object - an
    http stream over the writer if one is given, else the file at the
    destination path - with no Close call yet, and the new download and every
    chunk job queued for it point at that object; existing destinations are
    untouched. *)
Theorem Download_shares_one_destination fuel now openErr r p d r' :
  Download_start fuel now openErr r p = Ok (d, r') ->
  exists dl jobs,
    R.sinks r' = R.sinks r ++ [Download_sink p] /\
    R.downloads r' !! d = Some dl /\
    R.downloadHeap r' = R.downloadHeap r ++ jobs /\
    R.sinks r' !! D.destination dl = Some (Download_sink p) /\
    Forall (fun job => C.destination job = D.destination dl /\
                       C.download job = d) jobs.
Proof.
  intros H. apply Download_start_shape in H
    as (f & len & jobs & n & extra & wake & _ & -> & -> & Hall & _).
  eexists _, jobs. cbn. split; first done.
  split; first by apply list_lookup_middle.
  split; first done.
  split; first by apply list_lookup_middle.
  done.
Qed.

Lemma ex_started_run :
  Download_start 3 0 None ex_renter (ex_request 30 50) = Ok (ex_started.1, ex_started.2).
Proof. by vm_compute. Qed.

Lemma Download_shares_one_destination_witness :
  exists dl jobs,
    R.sinks ex_started.2 = R.sinks ex_renter ++ [Download_sink (ex_request 30 50)] /\
    R.downloads ex_started.2 !! ex_started.1 = Some dl /\
    R.downloadHeap ex_started.2 = R.downloadHeap ex_renter ++ jobs /\
    R.sinks ex_started.2 !! D.destination dl = Some (Download_sink (ex_request 30 50)) /\
    Forall (fun job => C.destination job = D.destination dl /\
                       C.download job = ex_started.1) jobs.
Proof.
  apply (Download_shares_one_destination 3 0 None ex_renter (ex_request 30 50)).
  by vm_compute.
Defined.

(** X6. The download a successful [Download] records is pending with a nil
    error; it carries the requested offset, the expanded length, the
    destination string and the name of the file found under the path, the
    fixed settings 25000 / 2 / 5, and an empty destination type - the label
    "file" or "http stream" that [Download] computes is not stored, so the
    history entry of the download reports the empty string for it. *)
Theorem Download_records_download fuel now openErr r p d r' :
  Download_start fuel now openErr r p = Ok (d, r') ->
  exists f len dl,
    Download_validate r p = Ok (f, len) /\
    R.downloads r' !! d = Some dl /\
    staticComplete dl = false /\ Err dl = None /\
    D.staticOffset dl = RP.Offset p /\ D.staticLength dl = len /\
    D.destinationString dl = RP.Destination p /\
    D.staticSiaPath dl = F.name f /\ D.staticStartTime dl = now /\
    D.staticLatencyTarget dl = 25000 /\ D.staticOverdrive dl = 2 /\
    D.staticPriority dl = 5 /\
    D.destinationType dl = "" /\
    DI.DestinationType (downloadInfo dl) = "" /\
    DI.Completed (downloadInfo dl) = false /\ DI.Error (downloadInfo dl) = "".
Proof.
  intros H. apply Download_start_shape in H
    as (f & len & jobs & n & extra & wake & Hv & -> & -> & _ & _).
  eexists f, len, _. split; first done.
  split; first by apply list_lookup_middle.
  by repeat split.
Qed.

Lemma Download_records_download_witness :
  exists f len dl,
    Download_validate ex_renter (ex_request 30 50) = Ok (f, len) /\
    R.downloads ex_started.2 !! ex_started.1 = Some dl /\
    staticComplete dl = false /\ Err dl = None /\
    D.staticOffset dl = 30 /\ D.staticLength dl = len /\
    D.destinationString dl = "/tmp/movie" /\
    D.staticSiaPath dl = F.name f /\ D.staticStartTime dl = 0 /\
    D.staticLatencyTarget dl = 25000 /\ D.staticOverdrive dl = 2 /\
    D.staticPriority dl = 5 /\
    D.destinationType dl = "" /\
    DI.DestinationType (downloadInfo dl) = "" /\
    DI.Completed (downloadInfo dl) = false /\ DI.Error (downloadInfo dl) = "".
Proof.
  apply (Download_records_download 3 0 None ex_renter (ex_request 30 50)).
  by vm_compute.
Defined.

(** X7. Right after [Download] has queued its chunks, and as long as no
    shutdown has been signalled, neither case of its final select is ready:
    the call blocks - also for an asynchronous request, whose flag plays no
    part after validation. *)
Theorem Download_blocks_after_start fuel now openErr r p d r' pick :
  Download_start fuel now openErr r p = Ok (d, r') ->
  R.stopChan r = ChanOpen ->
  Download_wait pick r' d = None.
Proof.
  intros H Hstop. apply Download_start_shape in H
    as (f & len & jobs & n & extra & wake & _ & -> & -> & _ & _).
  unfold Download_wait. cbn [R.downloads R.stopChan].
  rewrite list_lookup_middle by done. cbn. rewrite Hstop. by destruct pick.
Qed.

Lemma Download_blocks_after_start_witness :
  Download_wait CaseComplete ex_started.2 ex_started.1 = None.
Proof.
  apply (Download_blocks_after_start 3 0 None ex_renter (ex_request 30 50)).
  - by vm_compute.
  - reflexivity.
Defined.

(** X8. A successful [newDownload], validated or not, only adds: it stores
    one new download behind the existing ones and returns its address,
    appends jobs to the heap and entries to the log, and leaves the files,
    the destinations, the history and the stop channel alone; the wake signal
    is set as soon as one job is queued and is never cleared. *)
Theorem newDownload_only_adds fuel now r params dp r' :
  newDownload fuel now r params = Ok (dp, r') ->
  dp = length (R.downloads r) /\
  (exists dl, R.downloads r' = R.downloads r ++ [dl]) /\
  (exists jobs, R.downloadHeap r' = R.downloadHeap r ++ jobs /\
     R.newDownloads r' = (match jobs with [] => R.newDownloads r | _ => true end)) /\
  (exists extra, R.log r' = R.log r ++ extra) /\
  R.files r' = R.files r /\ R.sinks r' = R.sinks r /\
  R.downloadHistory r' = R.downloadHistory r /\ R.stopChan r' = R.stopChan r.
Proof.
  intros H. apply newDownload_shape in H
    as (f & jobs & n & extra & wake & _ & -> & -> & _ & ->).
  cbn. repeat split; eauto.
Qed.

Lemma newDownload_only_adds_witness :
  ex_queued.1 = length (R.downloads ex_renter) /\
  (exists dl, R.downloads ex_queued.2 = R.downloads ex_renter ++ [dl]) /\
  (exists jobs, R.downloadHeap ex_queued.2 = R.downloadHeap ex_renter ++ jobs /\
     R.newDownloads ex_queued.2 =
       (match jobs with [] => R.newDownloads ex_renter | _ => true end)) /\
  (exists extra, R.log ex_queued.2 = R.log ex_renter ++ extra) /\
  R.files ex_queued.2 = R.files ex_renter /\
  R.sinks ex_queued.2 = R.sinks ex_renter /\
  R.downloadHistory ex_queued.2 = R.downloadHistory ex_renter /\
  R.stopChan ex_queued.2 = R.stopChan ex_renter.
Proof.
  apply (newDownload_only_adds 3 0 ex_renter (ex_params 25000 30 50)).
  by vm_compute.
Defined.

(** ** The byte ranges of the queued jobs *)

Section FileRanges.
Variables (params : downloadParams) (f : file).
Hypothesis Hwf : wf_file f.
Hypothesis Hval : validated params f.

Local Abbreviation cs := (F.staticChunkSize f).
Local Abbreviation off := (P.offset params).
Local Abbreviation len := (P.length params).
Local Abbreviation minChunk := (minChunkOf params f).
Local Abbreviation maxChunk := (maxChunkOf params f).

(** Where the file range of chunk [i] begins; the end of the request for the
    chunk after the last. *)
Local Abbreviation startAt i :=
  (if i =? maxChunk + 1 then off + len else i * cs + fetchOffsetAt params f i).

Lemma startAt_first : startAt minChunk = off.
Proof.
  pose proof (offset_split params f Hwf) as (Ho1 & Ho2).
  pose proof (chunk_bounds params f Hwf Hval) as (Hb1 & Hb2).
  destruct (Z.eqb_spec minChunk (maxChunk + 1)); first lia.
  unfold fetchOffsetAt. rewrite Z.eqb_refl. lia.
Qed.

Lemma startAt_next i :
  minChunk <= i <= maxChunk ->
  i * cs + fetchOffsetAt params f i + fetchLengthAt params f i = startAt (i + 1).
Proof.
  intros Hi.
  pose proof (end_split params f Hwf) as (He1 & He2 & He3 & He4).
  destruct (Z.eqb_spec (i + 1) (maxChunk + 1)) as [E|E].
  - assert (i = maxChunk) as -> by lia.
    unfold fetchLengthAt. rewrite Z.eqb_refl. cbn [andb].
    destruct (Z.eqb_spec ((off + len) mod cs) 0) as [E0|E0]; cbn [negb].
    + specialize (He3 E0). lia.
    + specialize (He4 E0). lia.
  - unfold fetchLengthAt.
    destruct (Z.eqb_spec i maxChunk); first lia. cbn [andb].
    unfold fetchOffsetAt at 3.
    destruct (Z.eqb_spec (i + 1) minChunk); lia.
Qed.

Lemma jobsFrom_tile dp cms (k : nat) : forall i wo,
  minChunk <= i -> i + Z.of_nat k = maxChunk + 1 ->
  fileRangesTile (startAt i) (off + len) (jobsFrom params f dp cms k i wo).
Proof.
  induction k as [|k IH]; intros i wo Hi Hk; cbn [jobsFrom fileRangesTile].
  - destruct (Z.eqb_spec i (maxChunk + 1)); [done | lia].
  - split.
    + unfold fileStart. cbn. destruct (Z.eqb_spec i (maxChunk + 1)); [lia | done].
    + unfold fileEnd, fileStart.
      cbn [jobAt C.staticChunkIndex C.staticChunkSize C.staticFetchOffset
           C.staticFetchLength].
      rewrite startAt_next by lia. apply IH; lia.
Qed.

Lemma jobAt_inside dp cm wo i :
  minChunk <= i <= maxChunk -> fetchInsideChunk (jobAt params f dp cm wo i).
Proof.
  intros Hi. unfold fetchInsideChunk. cbn.
  pose proof (fetchOffsetAt_range params f Hwf i) as Hfo.
  pose proof (fetchLengthAt_range params f Hwf Hval i Hi) as Hfl.
  split; first lia. split; first lia.
  destruct Hwf as ((Hc1 & Hc2) & _).
  pose proof (Z.mod_pos_bound (off + len) cs Hc1).
  unfold fetchLengthAt. destruct (_ && _); lia.
Qed.

End FileRanges.

(** X9. Every job queued for a validated request fetches a non-empty window
    that lies inside its chunk: 0 <= fetch offset, 0 < fetch length, and
    fetch offset + fetch length <= chunk size. *)
Theorem newDownload_fetch_inside_chunk fuel now r params f :
  wf_file f -> validated params f -> enoughFuel fuel params f ->
  queued fuel now r params (fun _ _ jobs => Forall fetchInsideChunk jobs).
Proof.
  intros Hwf Hval Hfuel. apply (queued_validated _ _ _ _ f); [done..|].
  intros cms lg _ _.
  pose proof (chunk_bounds params f Hwf Hval) as (Hb1 & Hb2).
  apply Forall_forall. intros job (j & Hj & ->)%jobsFrom_elem.
  apply jobAt_inside; [done..|]. unfold chunkCount in *. lia.
Qed.

Lemma newDownload_fetch_inside_chunk_witness :
  queued 3 0 ex_renter (ex_params 25000 30 50)
    (fun _ _ jobs => Forall fetchInsideChunk jobs).
Proof.
  apply (newDownload_fetch_inside_chunk 3 0 ex_renter (ex_params 25000 30 50) ex_file).
  - apply ex_file_wf.
  - apply ex_params_validated; lia.
  - unfold enoughFuel. vm_compute. lia.
Defined.

(** X10. The file ranges of the jobs queued for a validated request follow
    one another without gap or overlap from the requested offset to
    offset + length; and, for a request of at most 2^63 bytes, every job
    writes its range at the position of its first file byte minus the
    requested offset. *)
Theorem newDownload_file_ranges fuel now r params f :
  wf_file f -> validated params f -> enoughFuel fuel params f ->
  queued fuel now r params (fun _ _ jobs =>
    fileRangesTile (P.offset params) (P.offset params + P.length params) jobs /\
    (P.length params <= 2 ^ 63 ->
     Forall (fun job => C.staticWriteOffset job = fileStart job - P.offset params)
            jobs)).
Proof.
  intros Hwf Hval Hfuel. apply (queued_validated _ _ _ _ f); [done..|].
  intros cms lg _ _.
  pose proof (chunk_bounds params f Hwf Hval) as (Hb1 & Hb2).
  split.
  - rewrite <- (startAt_first params f Hwf Hval) at 1.
    apply jobsFrom_tile; [done..| lia |unfold chunkCount; lia].
  - intros Hlen. apply Forall_forall. intros job (j & Hj & ->)%jobsFrom_elem.
    unfold fileStart. cbn.
    change 0 with (I64.wrap 0) at 1. rewrite endOffset_sum, Z.add_0_l.
    pose proof (prefixSum_bounds params f Hwf Hval j ltac:(lia)) as Hps.
    rewrite i64_wrap_id by lia.
    destruct j as [|j].
    + rewrite seqZ_nil by lia. cbn [fmap list_fmap sumZ foldr Z.of_nat].
      pose proof (startAt_first params f Hwf Hval) as Hs.
      destruct (Z.eqb_spec (minChunkOf params f) (maxChunkOf params f + 1));
        first lia.
      rewrite Z.add_0_r. lia.
    + rewrite prefixSum_inner by (done || lia).
      unfold fetchOffsetAt.
      destruct (Z.eqb_spec (minChunkOf params f + Z.of_nat (S j)) (minChunkOf params f));
        lia.
Qed.

Lemma newDownload_file_ranges_witness :
  queued 3 0 ex_renter (ex_params 25000 30 50) (fun _ _ jobs =>
    fileRangesTile 30 (30 + 50) jobs /\
    (50 <= 2 ^ 63 ->
     Forall (fun job => C.staticWriteOffset job = fileStart job - 30) jobs)).
Proof.
  apply (newDownload_file_ranges 3 0 ex_renter (ex_params 25000 30 50) ex_file).
  - apply ex_file_wf.
  - apply ex_params_validated; lia.
  - unfold enoughFuel. vm_compute. lia.
Defined.

(** ** Failing a stored download *)

Lemma managedFailAt_pending closeErr r d dl s e :
  R.downloads r !! d = Some dl ->
  staticComplete dl = false ->
  R.sinks r !! D.destination dl = Some s ->
  managedFailAt closeErr r d e =
  Ok (R.mk (R.files r) (R.hostContractor r)
           (<[d := D.set_completeChan ChanClosed (D.set_err e dl)]> (R.downloads r))
           (<[D.destination dl :=
                {| target := target s; closeCalls := S (closeCalls s) |}]> (R.sinks r))
           (R.downloadHistory r) (R.downloadHeap r) (R.newDownloads r)
           (R.log r ++ match closeErr with
                       | Some ce => [LogPrintln "unable to close download destination:"
                                                (Some ce)]
                       | None => []
                       end)
           (R.stopChan r)).
Proof.
  intros Hd Hc Hs. unfold managedFailAt. rewrite Hd.
  unfold managedFail. rewrite Hc. cbn [andb].
  unfold staticComplete in Hc.
  destruct (D.completeChan dl) eqn:Hchan; last done.
  cbn [D.completeChan D.set_err close mbind result_bind].
  rewrite Hchan. cbn [close mbind result_bind app foldlM applyEffect].
  unfold closeSink. cbn [R.sinks]. rewrite Hs. cbn [mbind result_bind].
  destruct closeErr; cbn [foldlM applyEffect mbind result_bind R.log]; first done.
  by rewrite app_nil_r.
Qed.

Lemma managedFailAt_on_complete closeErr r d dl e :
  R.downloads r !! d = Some dl ->
  staticComplete dl = true ->
  exists dl1 extra,
    managedFailAt closeErr r d e =
      Ok (R.mk (R.files r) (R.hostContractor r) (<[d := dl1]> (R.downloads r))
               (R.sinks r) (R.downloadHistory r) (R.downloadHeap r)
               (R.newDownloads r) (R.log r ++ extra) (R.stopChan r)) /\
    staticComplete dl1 = true /\
    D.destination dl1 = D.destination dl /\
    (Err dl = None <-> Err dl1 = None).
Proof.
  intros Hd Hc. unfold managedFailAt. rewrite Hd.
  unfold managedFail. rewrite Hc. cbn [andb].
  destruct (D.err dl) as [x|] eqn:Herr; cbn [is_nil negb mbind result_bind foldlM].
  - exists (D.set_err (Compose (Some x) e) dl), []. rewrite app_nil_r.
    split; first done. split; first done. split; first done.
    unfold Err. rewrite Herr. cbn. split; first done. by destruct e.
  - eexists dl, [_]. cbn [applyEffect mbind result_bind foldlM].
    split; first done. split; first done. split; first done.
    unfold Err. by rewrite Herr.
Qed.

(** X11. Failing a pending download through its pointer completes it for
    everyone who holds the pointer: the stored object is complete with the
    error passed, its destination has received one more Close call, a
    [Download] blocked on it can now return through the completion case and
    returns exactly that error, and its history entry reports it as completed
    with the error's message (the empty string for a nil error). *)
Theorem managedFailAt_completes closeErr r d dl s e :
  R.downloads r !! d = Some dl ->
  staticComplete dl = false ->
  R.sinks r !! D.destination dl = Some s ->
  exists r1 dl1,
    managedFailAt closeErr r d e = Ok r1 /\
    R.downloads r1 !! d = Some dl1 /\
    staticComplete dl1 = true /\ Err dl1 = e /\
    R.sinks r1 !! D.destination dl =
      Some {| target := target s; closeCalls := S (closeCalls s) |} /\
    Download_wait CaseComplete r1 d = Some (e, r1) /\
    DI.Completed (downloadInfo dl1) = true /\
    DI.Error (downloadInfo dl1) = match e with None => "" | Some x => Error x end.
Proof.
  intros Hd Hc Hs.
  rewrite (managedFailAt_pending closeErr r d dl s e Hd Hc Hs).
  assert (Hlook : <[d := D.set_completeChan ChanClosed (D.set_err e dl)]>
                    (R.downloads r) !! d
                  = Some (D.set_completeChan ChanClosed (D.set_err e dl))).
  { apply list_lookup_insert_eq. by eapply lookup_lt_Some. }
  eexists _, _. split; first done. cbn [R.downloads R.sinks].
  split; first exact Hlook.
  split; first done. split; first done.
  split.
  { apply list_lookup_insert_eq. by eapply lookup_lt_Some. }
  split.
  { unfold Download_wait. cbn [R.downloads]. rewrite Hlook. done. }
  split; first by (unfold downloadInfo; cbn; destruct e).
  unfold downloadInfo. cbn. by destruct e.
Qed.

Lemma managedFailAt_completes_witness :
  exists r1 dl1,
    managedFailAt None ex_pending_renter 0%nat (Some errInterrupted) = Ok r1 /\
    R.downloads r1 !! 0%nat = Some dl1 /\
    staticComplete dl1 = true /\ Err dl1 = Some errInterrupted /\
    R.sinks r1 !! D.destination (ex_download ChanOpen None) =
      Some {| target := OSFile "/tmp/movie"; closeCalls := 1 |} /\
    Download_wait CaseComplete r1 0%nat = Some (Some errInterrupted, r1) /\
    DI.Completed (downloadInfo dl1) = true /\
    DI.Error (downloadInfo dl1) = "download interrupted by shutdown".
Proof.
  apply (managedFailAt_completes None ex_pending_renter 0%nat
           (ex_download ChanOpen None)
           {| target := OSFile "/tmp/movie"; closeCalls := 0 |}
           (Some errInterrupted)); reflexivity.
Defined.

(** X12. Whatever a successful [managedFail] does to one download, it leaves
    the other downloads, the other destinations, the history, the heap, the
    files, the wake signal and the stop channel as they were, and it only
    appends to the log. *)
Theorem managedFailAt_frame closeErr r d e r1 :
  managedFailAt closeErr r d e = Ok r1 ->
  exists dl,
    R.downloads r !! d = Some dl /\
    length (R.downloads r1) = length (R.downloads r) /\
    (forall q, q <> d -> R.downloads r1 !! q = R.downloads r !! q) /\
    (forall t, t <> D.destination dl -> R.sinks r1 !! t = R.sinks r !! t) /\
    (exists extra, R.log r1 = R.log r ++ extra) /\
    R.downloadHistory r1 = R.downloadHistory r /\
    R.downloadHeap r1 = R.downloadHeap r /\
    R.files r1 = R.files r /\
    R.newDownloads r1 = R.newDownloads r /\
    R.stopChan r1 = R.stopChan r.
Proof.
  intros H.
  destruct (R.downloads r !! d) as [dl|] eqn:Hd;
    last by (unfold managedFailAt in H; rewrite Hd in H).
  exists dl. split; first done.
  destruct (staticComplete dl) eqn:Hc.
  - destruct (managedFailAt_on_complete closeErr r d dl e Hd Hc)
      as (dl1 & extra & Hrun & _).
    rewrite Hrun in H. injection H as <-. cbn.
    split; first by rewrite length_insert.
    split; first by (intros q Hq; rewrite list_lookup_insert_ne).
    repeat split; eauto.
  - destruct (R.sinks r !! D.destination dl) as [s|] eqn:Hs.
    + rewrite (managedFailAt_pending closeErr r d dl s e Hd Hc Hs) in H.
      injection H as <-. cbn.
      split; first by rewrite length_insert.
      split; first by (intros q Hq; rewrite list_lookup_insert_ne).
      split; first by (intros t Ht; rewrite list_lookup_insert_ne).
      repeat split; eauto.
    + exfalso. unfold managedFailAt in H. rewrite Hd in H.
      unfold managedFail in H. rewrite Hc in H. cbn [andb] in H.
      unfold staticComplete in Hc.
      destruct (D.completeChan dl) eqn:Hchan; last done.
      cbn [D.completeChan D.set_err close mbind result_bind] in H.
      rewrite Hchan in H. cbn [close mbind result_bind app foldlM applyEffect] in H.
      unfold closeSink in H. cbn [R.sinks] in H. rewrite Hs in H. done.
Qed.

Lemma managedFailAt_frame_witness :
  exists dl,
    R.downloads ex_pending_renter !! 0%nat = Some dl /\
    length (R.downloads ex_failed) = length (R.downloads ex_pending_renter) /\
    (forall q, q <> 0%nat ->
       R.downloads ex_failed !! q = R.downloads ex_pending_renter !! q) /\
    (forall t, t <> D.destination dl ->
       R.sinks ex_failed !! t = R.sinks ex_pending_renter !! t) /\
    (exists extra, R.log ex_failed = R.log ex_pending_renter ++ extra) /\
    R.downloadHistory ex_failed = R.downloadHistory ex_pending_renter /\
    R.downloadHeap ex_failed = R.downloadHeap ex_pending_renter /\
    R.files ex_failed = R.files ex_pending_renter /\
    R.newDownloads ex_failed = R.newDownloads ex_pending_renter /\
    R.stopChan ex_failed = R.stopChan ex_pending_renter.
Proof.
  apply (managedFailAt_frame None ex_pending_renter 0%nat (Some errInterrupted)).
  by vm_compute.
Defined.

Lemma managedFailAt_run_complete calls : forall r d dl,
  R.downloads r !! d = Some dl ->
  staticComplete dl = true ->
  exists r1 dl1,
    managedFailAt_run calls r d = Ok r1 /\
    R.sinks r1 = R.sinks r /\
    R.downloads r1 !! d = Some dl1 /\
    staticComplete dl1 = true /\
    (Err dl = None <-> Err dl1 = None).
Proof.
  induction calls as [|[ce e] calls IH]; intros r d dl Hd Hc.
  - exists r, dl. by repeat split.
  - destruct (managedFailAt_on_complete ce r d dl e Hd Hc)
      as (dl1 & extra & Hrun & Hc1 & _ & Hnil).
    unfold managedFailAt_run. cbn [foldlM fst snd]. rewrite Hrun.
    cbn [mbind result_bind].
    match goal with
    | |- context [foldlM _ ?r0 calls] =>
        destruct (IH r0 d dl1) as (r2 & dl2 & Hrun2 & Hs2 & Hd2 & Hc2 & Hnil2)
    end.
    { cbn [R.downloads]. apply list_lookup_insert_eq. by eapply lookup_lt_Some. }
    { done. }
    exists r2, dl2. split; first exact Hrun2.
    split; first by rewrite Hs2.
    split; first done. split; first done.
    by rewrite Hnil, Hnil2.
Qed.

(** X13. However often a pending download is failed through its pointer, its
    destination receives exactly one Close call, the download ends up
    complete, and whether it carries an error is settled by the first call
    alone: nil there, and every later error is dropped; non-nil there, and it
    stays non-nil. *)
Theorem managedFailAt_run_closes_once ce e rest r d dl s :
  R.downloads r !! d = Some dl ->
  staticComplete dl = false ->
  R.sinks r !! D.destination dl = Some s ->
  exists r1 dl1,
    managedFailAt_run ((ce, e) :: rest) r d = Ok r1 /\
    R.sinks r1 !! D.destination dl =
      Some {| target := target s; closeCalls := S (closeCalls s) |} /\
    R.downloads r1 !! d = Some dl1 /\
    staticComplete dl1 = true /\
    (Err dl1 = None <-> e = None).
Proof.
  intros Hd Hc Hs.
  unfold managedFailAt_run. cbn [foldlM fst snd].
  rewrite (managedFailAt_pending ce r d dl s e Hd Hc Hs). cbn [mbind result_bind].
  match goal with
  | |- context [foldlM _ ?r0 rest] =>
      destruct (managedFailAt_run_complete rest r0 d
                  (D.set_completeChan ChanClosed (D.set_err e dl)))
        as (r2 & dl2 & Hrun & Hs2 & Hd2 & Hc2 & Hnil)
  end.
  { cbn [R.downloads]. apply list_lookup_insert_eq. by eapply lookup_lt_Some. }
  { done. }
  exists r2, dl2. split; first exact Hrun.
  split.
  { rewrite Hs2. cbn [R.sinks]. apply list_lookup_insert_eq. by eapply lookup_lt_Some. }
  split; first done. split; first done.
  rewrite <- Hnil. done.
Qed.

Lemma managedFailAt_run_closes_once_witness :
  exists r1 dl1,
    managedFailAt_run
      [(None, None); (None, Some errInterrupted); (Some errBoundary, Some errLength)]
      ex_pending_renter 0%nat = Ok r1 /\
    R.sinks r1 !! D.destination (ex_download ChanOpen None) =
      Some {| target := OSFile "/tmp/movie"; closeCalls := 1 |} /\
    R.downloads r1 !! 0%nat = Some dl1 /\
    staticComplete dl1 = true /\
    (Err dl1 = None <-> (None : option error) = None).
Proof.
  apply (managedFailAt_run_closes_once None None
           [(None, Some errInterrupted); (Some errBoundary, Some errLength)]
           ex_pending_renter 0%nat (ex_download ChanOpen None)
           {| target := OSFile "/tmp/movie"; closeCalls := 0 |}); reflexivity.
Defined.

(** ** [Download], end to end *)

(** X14. A request that passes the checks of [Download] without wrap-around,
    on a well-formed file, with a destination that opens, reaches the final
    select: [Download] records the download as the newest history entry and
    queues jobs whose file ranges cover exactly the bytes from the offset to
    offset + length - to the end of the file for the length sentinel 0. *)
Theorem Download_queues_requested_bytes fuel now openErr r p f len :
  Download_validate r p = Ok (f, len) ->
  wf_file f ->
  0 <= RP.Offset p <= F.size f -> 0 <= RP.Length p ->
  RP.Offset p + RP.Length p < U64.modulus ->
  (RP.Httpwriter p = None -> openErr = None) ->
  enoughFuel fuel (Download_params r p f len) f ->
  exists d r' jobs,
    Download_start fuel now openErr r p = Ok (d, r') /\
    R.downloadHistory r' = R.downloadHistory r ++ [d] /\
    R.downloadHeap r' = R.downloadHeap r ++ jobs /\
    len = (if RP.Length p =? 0 then F.size f - RP.Offset p else RP.Length p) /\
    fileRangesTile (RP.Offset p) (RP.Offset p + len) jobs.
Proof.
  intros Hv Hwf Ho Hl Hfit Hopen Hfuel.
  pose proof Hwf as ((_ & _) & (_ & Hs) & _).
  destruct (Download_validate_inv r p f len Hv) as (_ & Hne & Hlen0 & Hsum).
  assert (Hlen : len = (if RP.Length p =? 0 then F.size f - RP.Offset p
                        else RP.Length p) /\
                 0 < len /\ RP.Offset p + len <= F.size f).
  { destruct (Z.eqb_spec (RP.Length p) 0) as [Hz|Hz].
    - assert (U64.sub (F.size f) (RP.Offset p) = F.size f - RP.Offset p) as Hsub.
      { apply u64_wrap_id. unfold U64.inrange. lia. }
      rewrite Hsub in Hlen0. lia.
    - assert (U64.add (RP.Offset p) len = RP.Offset p + len) as Hadd.
      { apply u64_wrap_id. unfold U64.inrange. lia. }
      rewrite Hadd in Hsum. lia. }
  destruct Hlen as (Hlen & Hpos & Hin).
  assert (Hval : validated (Download_params r p f len) f).
  { unfold validated. cbn. repeat split; (done || lia). }
  assert (Hq : queued fuel now
    (R.mk (R.files r) (R.hostContractor r) (R.downloads r)
          (R.sinks r ++ [Download_sink p]) (R.downloadHistory r)
          (R.downloadHeap r) (R.newDownloads r) (R.log r) (R.stopChan r))
    (Download_params r p f len)
    (fun _ _ jobs => fileRangesTile (RP.Offset p) (RP.Offset p + len) jobs)).
  { apply (queued_validated _ _ _ _ f); [done..|]. intros cms lg _ _.
    pose proof (chunk_bounds _ f Hwf Hval) as (Hb1 & Hb2).
    change (RP.Offset p) with (P.offset (Download_params r p f len)) at 1.
    rewrite <- (startAt_first _ f Hwf Hval).
    apply jobsFrom_tile; [done..| lia |unfold chunkCount; lia]. }
  destruct Hq as (dp & r0 & jobs & Hnew & Hheap & Htile).
  pose proof (newDownload_frame _ _ _ _ _ _ Hnew) as (_ & Hh & _).
  cbn in Hheap, Htile, Hh.
  exists dp, (R.mk (R.files r0) (R.hostContractor r0) (R.downloads r0) (R.sinks r0)
                   (R.downloadHistory r0 ++ [dp]) (R.downloadHeap r0)
                   (R.newDownloads r0) (R.log r0) (R.stopChan r0)), jobs.
  split.
  - unfold Download_start. rewrite Hv. cbn [mbind result_bind].
    unfold Download_params, Download_sink in Hnew.
    destruct (RP.Httpwriter p) as [w|]; [|rewrite (Hopen eq_refl)];
      cbn [mbind result_bind]; by rewrite Hnew.
  - cbn. by rewrite Hh.
Qed.

Lemma Download_queues_requested_bytes_witness :
  exists d r' jobs,
    Download_start 5 0 None ex_renter (ex_request 30 0) = Ok (d, r') /\
    R.downloadHistory r' = R.downloadHistory ex_renter ++ [d] /\
    R.downloadHeap r' = R.downloadHeap ex_renter ++ jobs /\
    70 = (if 0 =? 0 then 100 - 30 else 0) /\
    fileRangesTile 30 (30 + 70) jobs.
Proof.
  apply (Download_queues_requested_bytes 5 0 None ex_renter (ex_request 30 0) ex_file 70).
  - by vm_compute.
  - apply ex_file_wf.
  - cbn. lia.
  - cbn. lia.
  - cbn. rewrite modulus_val. lia.
  - reflexivity.
  - unfold enoughFuel. vm_compute. lia.
Defined.

(** X15. When a download that [Download] has just started is failed through
    its pointer, the history lists it first, completed and with the error's
    message, in front of the unchanged older entries, and the blocked
    [Download] can return through the completion case with that error. *)
Theorem Download_then_fail_shows_in_history fuel now openErr closeErr r p d r1 ds e :
  resolves r ds ->
  Download_start fuel now openErr r p = Ok (d, r1) ->
  exists r2 info,
    managedFailAt closeErr r1 d e = Ok r2 /\
    DownloadHistory r2 = Ok (info :: (downloadInfo <$> reverse ds)) /\
    DI.Completed info = true /\
    DI.Error info = match e with None => "" | Some x => Error x end /\
    DI.Offset info = RP.Offset p /\
    Download_wait CaseComplete r2 d = Some (e, r2).
Proof.
  intros Hres Hstart.
  apply Download_start_shape in Hstart
    as (f & len & jobs & n & extra & wake & _ & -> & -> & _ & _).
  set (dl := D.set_chunksRemaining n (freshDownload now (Download_params r p f len) f)).
  assert (Hd : (R.downloads r ++ [dl]) !! length (R.downloads r) = Some dl)
    by by apply list_lookup_middle.
  assert (Hs : (R.sinks r ++ [Download_sink p]) !! D.destination dl
               = Some (Download_sink p)) by by apply list_lookup_middle.
  match goal with |- context [managedFailAt closeErr ?r1 _ e] =>
    rewrite (managedFailAt_pending closeErr r1 _ dl (Download_sink p) e Hd eq_refl Hs)
  end.
  cbn [R.downloads R.sinks R.log R.files R.hostContractor R.downloadHistory
       R.downloadHeap R.newDownloads R.stopChan].
  set (dl' := D.set_completeChan ChanClosed (D.set_err e dl)).
  match goal with |- context [Ok (R.mk _ _ ?l _ _ _ _ _ _)] =>
    assert (Hins : l = R.downloads r ++ [dl'])
  end.
  { rewrite insert_app_r_alt by lia. by rewrite Nat.sub_diag. }
  rewrite Hins.
  eexists _, (downloadInfo dl'). split; first done.
  split.
  { rewrite (DownloadHistory_resolved _ (ds ++ [dl'])); first by rewrite reverse_app.
    unfold resolves. cbn [R.downloads R.downloadHistory]. apply Forall2_app.
    - eapply Forall2_impl; first exact Hres.
      intros q x Hq. cbn in Hq. rewrite lookup_app_l; first done.
      by eapply lookup_lt_Some.
    - constructor; last constructor. by apply list_lookup_middle. }
  split; first by (unfold downloadInfo; cbn; destruct e).
  split; first by (unfold downloadInfo; cbn; destruct e).
  split; first by (unfold downloadInfo; cbn; destruct e).
  unfold Download_wait. cbn [R.downloads].
  rewrite list_lookup_middle by done. done.
Qed.

Lemma Download_then_fail_shows_in_history_witness :
  exists r2 info,
    managedFailAt None ex_started.2 ex_started.1 (Some errInterrupted) = Ok r2 /\
    DownloadHistory r2 = Ok (info :: (downloadInfo <$> reverse [])) /\
    DI.Completed info = true /\
    DI.Error info = "download interrupted by shutdown" /\
    DI.Offset info = 30 /\
    Download_wait CaseComplete r2 ex_started.1 = Some (Some errInterrupted, r2).
Proof.
  apply (Download_then_fail_shows_in_history 3 0 None None ex_renter (ex_request 30 50)).
  - unfold resolves. cbn. constructor.
  - by vm_compute.
Defined.

(** ** The error line for repeated pieces *)

Section PieceKeys.
Variables (minChunk maxChunk : Z).
Hypothesis Hrange : 0 <= minChunk <= maxChunk /\ maxChunk < U64.modulus.

Local Abbreviation slot := (fun c : Z => Z.to_nat (c - minChunk)).

Lemma addPiece_log_exact rid cms lg p cms' lg' :
  addPiece minChunk maxChunk rid (cms, lg) p = Ok (cms', lg') ->
  lg' = lg ++ (if bool_decide (inChunks minChunk maxChunk p /\
                               is_Some (lookup2 cms (slot (Chunk p)) rid))
               then [errMultiplePieces] else []).
Proof.
  unfold addPiece, inChunks.
  destruct ((minChunk <=? Chunk p) && (Chunk p <=? maxChunk)) eqn:E.
  - apply andb_true_iff in E as [E1 E2]. apply Z.leb_le in E1, E2.
    assert (U64.sub (Chunk p) minChunk = Chunk p - minChunk) as ->.
    { apply u64_wrap_id. unfold U64.inrange. lia. }
    unfold lookup2. destruct (cms !! _) as [m|]; last done.
    cbn [mbind option_bind]. intros [= <- <-].
    case_bool_decide as H1; case_bool_decide as H2; rewrite ?app_nil_r; try done.
    + exfalso. apply H2. done.
    + exfalso. apply H1. by destruct H2.
  - intros [= <- <-]. rewrite bool_decide_eq_false_2; first by rewrite app_nil_r.
    intros [[H1 H2] _]. apply andb_false_iff in E as [E|E]; lia.
Qed.

Lemma keysOf_cons e l :
  keysOf minChunk maxChunk (e :: l) =
  if bool_decide (inChunks minChunk maxChunk e.2)
  then (e.1, Chunk e.2) :: keysOf minChunk maxChunk l
  else keysOf minChunk maxChunk l.
Proof.
  unfold keysOf, inChunks. rewrite filter_cons.
  destruct (decide _) as [H|H].
  - by rewrite bool_decide_eq_true_2.
  - by rewrite bool_decide_eq_false_2.
Qed.

Lemma keysOf_inside key l :
  key ∈ keysOf minChunk maxChunk l -> minChunk <= key.2 <= maxChunk.
Proof.
  unfold keysOf. intros (e & -> & He)%list_elem_of_fmap.
  by apply list_elem_of_filter in He as [He _].
Qed.

Lemma addPieces_log_dups (l : list (FileContractID * pieceData)) :
  forall cms lg,
    length cms = Z.to_nat (maxChunk - minChunk + 1) ->
    exists cms' k,
      foldlM (λ st e, addPiece minChunk maxChunk e.1 st e.2) (cms, lg) l
        = Ok (cms', lg ++ replicate k errMultiplePieces) /\
      (k = 0%nat <->
       NoDup (keysOf minChunk maxChunk l) /\
       forall key, key ∈ keysOf minChunk maxChunk l ->
                   lookup2 cms (slot key.2) key.1 = None).
Proof.
  induction l as [|[rid p] l IH]; intros cms lg Hlen; cbn [foldlM].
  - exists cms, 0%nat. cbn. rewrite app_nil_r. split; first done.
    split; last done. intros _. split; first by constructor.
    intros key Hk. by apply elem_of_nil in Hk.
  - destruct (addPiece_ok minChunk maxChunk Hrange rid cms lg p Hlen)
      as (cms1 & lg1 & Hadd & Hlen1 & Hl1).
    pose proof (addPiece_log_exact _ _ _ _ _ _ Hadd) as Hlg.
    cbn [fst snd]. rewrite Hadd. cbn [mbind result_bind].
    destruct (IH cms1 lg1 Hlen1) as (cms' & k' & Hrun & Hk').
    rewrite keysOf_cons. cbn [fst snd].
    destruct (decide (inChunks minChunk maxChunk p)) as [Hin|Hout].
    + rewrite (bool_decide_eq_true_2 _ Hin).
      destruct (decide (is_Some (lookup2 cms (slot (Chunk p)) rid))) as [Hocc|Hfree].
      * rewrite bool_decide_eq_true_2 in Hlg by done. subst lg1.
        exists cms', (S k'). split.
        { rewrite Hrun. by rewrite <- app_assoc. }
        split; first done. intros [_ Hnone]. exfalso.
        specialize (Hnone (rid, Chunk p)). cbn in Hnone.
        rewrite Hnone in Hocc; last by left. by destruct Hocc.
      * rewrite bool_decide_eq_false_2 in Hlg by (by intros [_ ?]).
        rewrite app_nil_r in Hlg. subst lg1.
        exists cms', k'. split; first done.
        rewrite Hk'. split.
        -- intros [Hnd Hnone]. split.
           ++ constructor; last done. intros Hmem.
              specialize (Hnone _ Hmem). cbn in Hnone.
              rewrite Hl1 in Hnone. by rewrite bool_decide_eq_true_2 in Hnone.
           ++ intros key [->|Hmem]%elem_of_cons.
              ** cbn. destruct (lookup2 cms _ rid) eqn:E; last done.
                 exfalso. apply Hfree. by eexists.
              ** specialize (Hnone _ Hmem). rewrite Hl1 in Hnone.
                 by case_bool_decide.
        -- intros [Hnd Hnone]. apply NoDup_cons in Hnd as [Hnotin Hnd].
           split; first done. intros key Hmem.
           rewrite Hl1. rewrite bool_decide_eq_false_2.
           ++ apply Hnone. by right.
           ++ intros (_ & Hslot & Hrid).
              pose proof (keysOf_inside _ _ Hmem) as Hkey.
              unfold inChunks in Hin. apply Hnotin.
              assert (key.2 = Chunk p) as <- by lia.
              rewrite <- Hrid. by destruct key.
    + rewrite (bool_decide_eq_false_2 _ Hout).
      rewrite bool_decide_eq_false_2 in Hlg by (by intros [? _]).
      rewrite app_nil_r in Hlg. subst lg1.
      exists cms', k'. split; first done.
      rewrite Hk'. split; intros [Hnd Hnone]; (split; first done); intros key Hmem;
        specialize (Hnone _ Hmem); rewrite Hl1 in *;
        by rewrite bool_decide_eq_false_2 in * by (by intros [? _]).
Qed.

End PieceKeys.

(** X16. While it assembles the chunk maps, [newDownload] appends to the log
    nothing but copies of the line about multiple pieces, and it appends
    none exactly when no two pieces inside the requested chunks share their
    chunk and their resolved contract. *)
Theorem newDownload_logs_repeated_pieces fuel now r params f :
  wf_file f -> validated params f -> enoughFuel fuel params f ->
  queued fuel now r params (fun _ r' _ =>
    exists k,
      R.log r' = R.log r ++ replicate k errMultiplePieces /\
      (k = 0%nat <-> NoDup (pieceKeys (R.hostContractor r) params f))).
Proof.
  intros Hwf Hval Hfuel.
  pose proof (chunk_bounds params f Hwf Hval) as (Hb1 & Hb2).
  destruct (newDownload_validated params f Hwf Hval fuel now r Hfuel)
    as (cms & lg & Hasm & Hlen & Hnew).
  eexists _, _, _. split; first exact Hnew.
  split; first done. cbn [R.log].
  unfold assembleChunkMaps in Hasm. rewrite assemble_flat in Hasm.
  assert (U64.add (U64.sub (maxChunkOf params f) (minChunkOf params f)) 1
          = chunkCount params f) as Hcount.
  { unfold U64.add, U64.sub, chunkCount.
    rewrite (u64_wrap_id (maxChunkOf params f - minChunkOf params f))
      by (unfold U64.inrange; lia).
    apply u64_wrap_id. unfold U64.inrange. lia. }
  rewrite Hcount in Hasm.
  destruct (addPieces_log_dups (minChunkOf params f) (maxChunkOf params f)
              ltac:(lia) (allPieces (R.hostContractor r) f)
              (replicate (Z.to_nat (chunkCount params f)) ∅) (R.log r))
    as (cms' & k & Hrun & Hk).
  { by rewrite length_replicate. }
  rewrite Hrun in Hasm. injection Hasm as _ <-.
  exists k. split; first done.
  rewrite Hk. unfold pieceKeys. split; first by intros [? _].
  intros Hnd. split; first done.
  intros key _. apply lookup2_replicate_empty.
Qed.

Lemma newDownload_logs_repeated_pieces_witness :
  queued 3 0 ex_renter (ex_params 25000 30 50) (fun _ r' _ =>
    exists k,
      R.log r' = R.log ex_renter ++ replicate k errMultiplePieces /\
      (k = 0%nat <->
       NoDup (pieceKeys (R.hostContractor ex_renter) (ex_params 25000 30 50) ex_file))).
Proof.
  apply (newDownload_logs_repeated_pieces 3 0 ex_renter (ex_params 25000 30 50) ex_file).
  - apply ex_file_wf.
  - apply ex_params_validated; lia.
  - unfold enoughFuel. vm_compute. lia.
Defined.
